(** * dummy_ui: the country-selection and document-back capture screens

    A shallow embedding of
      - src/components/CountrySelection.tsx
      - src/components/DocumentBackCapture.tsx
    and the properties of the two screens.

    Conventions of the embedding.
      - A JavaScript string is a [string]; a field that may be absent
        ([undefined]) is an [option string].
      - A [Map] is an association list in insertion order, as the order of
        [Map.prototype.entries] is observable.
      - An event handler is a [Script]: a tree of state updates, calls of the
        callbacks and hooks the component receives, and [await] points.
        Callbacks ([onNext], [onCapture], [stopCamera], ...) are opaque: a
        call is recorded in the trace and returns normally.
      - What the platform decides ([localeCompare], [new Date()],
        [crypto.randomUUID()], how a promise settles) is an argument. *)

From Stdlib Require Import List String Ascii ZArith Lia Bool Arith.
From Stdlib Require Import Sorted Permutation.
Import ListNotations.
Open Scope string_scope.

(* ================================================================= *)
(** ** JavaScript values shared by both components *)

(** [!!value] for a string: the empty string is falsy. *)
Definition truthy (s : string) : bool := negb (String.eqb s "").

(** [m || d], for a possibly absent string [m] and a string [d]. *)
Definition or_else (m : option string) (d : string) : string :=
  match m with
  | Some s => if truthy s then s else d
  | None => d
  end.

(** [m === lit], for a possibly absent string [m]. *)
Definition strict_eq (m : option string) (lit : string) : bool :=
  match m with
  | Some s => String.eqb s lit
  | None => false
  end.

(* ================================================================= *)
(** ** src/components/CountrySelection.tsx *)

Module CountrySelection.

(** An item of [helper/metadata.json], as the component casts it. *)
Record MetadataItem : Type := {
  country : string;
  country_code : string
}.

(** [Map<string, string>]: keys in order of first insertion. *)
Definition JsMap : Type := list (string * string).

(** [m.set(k, v)]: an existing key keeps its place and takes the new
    value, a new key goes to the end. *)
Fixpoint map_set (k v : string) (m : JsMap) : JsMap :=
  match m with
  | [] => [(k, v)]
  | (k', v') :: m' =>
      if String.eqb k' k then (k', v) :: m' else (k', v') :: map_set k v m'
  end.

(** [m.get(k)]. *)
Fixpoint map_get (k : string) (m : JsMap) : option string :=
  match m with
  | [] => None
  | (k', v') :: m' => if String.eqb k' k then Some v' else map_get k m'
  end.

(** [new Map(iterable)]: the entries are set one after the other. *)
Definition new_Map (entries : list (string * string)) : JsMap :=
  fold_left (fun m e => map_set (fst e) (snd e) m) entries [].

(** [Array.from(m.entries())]. *)
Definition entries (m : JsMap) : list (string * string) := m.

(** [Array.prototype.sort(compareFn)] is stable, and puts [a] before [b]
    when [compareFn(a, b) < 0]. An element is inserted in front of the
    first one it does not compare greater than, so that equal elements
    keep their order. *)
Fixpoint sort_insert {A : Type} (compareFn : A -> A -> Z) (x : A) (l : list A)
  : list A :=
  match l with
  | [] => [x]
  | y :: l' =>
      if (compareFn x y <=? 0)%Z then x :: y :: l'
      else y :: sort_insert compareFn x l'
  end.

Definition sort {A : Type} (compareFn : A -> A -> Z) (l : list A) : list A :=
  fold_right (sort_insert compareFn) [] l.

(** [a] may stand before [b]: [compareFn(a, b) <= 0]. *)
Definition in_order {A : Type} (compareFn : A -> A -> Z) (a b : A) : Prop :=
  (compareFn a b <= 0)%Z.

(** [countries], lines 17-24. [localeCompare] is the platform's
    [String.prototype.localeCompare]. *)
Definition countries (localeCompare : string -> string -> Z)
    (metadata : list MetadataItem) : list (string * string) :=
  sort (fun a b => localeCompare (snd a) (snd b))
       (entries (new_Map
          (map (fun item => (country_code item, country item)) metadata))).

(** The callback given to [setTimeout]: [() => onNext()]. *)
Inductive Callback : Type :=
| arrow_onNext.

(** What [handleChange] does to the outside. *)
Inductive Effect : Type :=
| onSelectCountryCode (countryCode : string)
| setTimeout (handler : Callback) (timeout : nat).

(** [handleChange], lines 26-32, on [event.target.value]. *)
Definition handleChange (value : string) : list Effect :=
  onSelectCountryCode value ::
  (if truthy value then [setTimeout arrow_onNext 100] else []).

(** The calls the parent of the screen receives. *)
Inductive ParentCall : Type :=
| called_onSelectCountryCode (countryCode : string)
| called_onNext.

(** The event loop around the screen: a clock in milliseconds, the timers
    that are set with the time they are due, and the calls made so far. *)
Record Loop : Type := {
  now : nat;
  timers : list (nat * Callback);
  calls : list ParentCall
}.

Definition perform (l : Loop) (e : Effect) : Loop :=
  match e with
  | onSelectCountryCode c =>
      {| now := now l; timers := timers l;
         calls := calls l ++ [called_onSelectCountryCode c] |}
  | setTimeout h ms =>
      {| now := now l; timers := timers l ++ [(now l + ms, h)];
         calls := calls l |}
  end.

(** The change event of the selector is dispatched. *)
Definition change (value : string) (l : Loop) : Loop :=
  fold_left perform (handleChange value) l.

Definition run_callback (h : Callback) : ParentCall :=
  match h with
  | arrow_onNext => called_onNext
  end.

(** [d] milliseconds pass: the timers due by then run, once each. *)
Definition elapse (d : nat) (l : Loop) : Loop :=
  let t := now l + d in
  let due := filter (fun tm => (fst tm <=? t)%nat) (timers l) in
  let rest := filter (fun tm => negb (fst tm <=? t)%nat) (timers l) in
  {| now := t; timers := rest;
     calls := calls l ++ map (fun tm => run_callback (snd tm)) due |}.

Definition is_onNext (c : ParentCall) : bool :=
  match c with
  | called_onNext => true
  | _ => false
  end.

Definition count_onNext (cs : list ParentCall) : nat :=
  List.length (filter is_onNext cs).

(** A comparison by code points, as an instance of [localeCompare]. *)
Definition codePointCompare (a b : string) : Z :=
  match String.compare a b with
  | Lt => (-1)%Z
  | Eq => 0%Z
  | Gt => 1%Z
  end.

Definition example_metadata : list MetadataItem :=
  [ {| country := "Sweden"; country_code := "SE" |};
    {| country := "Czech Republic"; country_code := "CZ" |};
    {| country := "Austria"; country_code := "AT" |};
    {| country := "Czechia"; country_code := "CZ" |};
    {| country := "Sweden"; country_code := "SE" |} ].

Definition idle_loop : Loop := {| now := 0; timers := []; calls := [] |}.

(** [countries.find(([code]) => code === selectedCountryCode)?.[1]],
    line 82, for a selected code that is a string. *)
Definition find_name (localeCompare : string -> string -> Z)
    (metadata : list MetadataItem) (code : string) : option string :=
  option_map snd
    (find (fun entry => String.eqb (fst entry) code)
          (countries localeCompare metadata)).

(** The banner under the selector, lines 77-86:
    [{selectedCountryCode && (... Country selected: {name} ...)}].
    [selectedCountryCode] is a string or [null]. [None] is no banner, for
    [null] and for the empty string; [Some name] is the banner, where
    [name] is what line 82 finds, [None] when it finds nothing. *)
Definition selected_banner (localeCompare : string -> string -> Z)
    (metadata : list MetadataItem) (selectedCountryCode : option string)
  : option (option string) :=
  match selectedCountryCode with
  | Some code =>
      if truthy code then Some (find_name localeCompare metadata code)
      else None
  | None => None
  end.

(** What the user does on the screen: pick a value in the selector, or let
    time pass. *)
Inductive UserAction : Type :=
| select (value : string)
| wait (milliseconds : nat).

Definition act (l : Loop) (a : UserAction) : Loop :=
  match a with
  | select value => change value l
  | wait d => elapse d l
  end.

Definition is_nonempty_select (a : UserAction) : bool :=
  match a with
  | select value => truthy value
  | wait _ => false
  end.

Definition selected_values (actions : list UserAction) : list string :=
  flat_map (fun a => match a with select value => [value] | wait _ => [] end)
           actions.

Definition selected_codes (cs : list ParentCall) : list string :=
  flat_map (fun c => match c with
                     | called_onSelectCountryCode code => [code]
                     | called_onNext => []
                     end) cs.

(** [a] stands somewhere before [b] in [l]. *)
Definition stands_before {A : Type} (a b : A) (l : list A) : Prop :=
  exists l1 l2, l = (l1 ++ a :: l2)%list /\ In b l2.

(** The entry of the list for a record of the table. *)
Definition entry_of (item : MetadataItem) : string * string :=
  (country_code item, country item).

(** A table with one record per code and two names of the same length. *)
Definition same_name_metadata : list MetadataItem :=
  [ {| country := "Zambia"; country_code := "ZM" |};
    {| country := "Georgia"; country_code := "GE" |};
    {| country := "georgia"; country_code := "US-GA" |} ].

(** A comparison by length, as an instance of [localeCompare] under which
    different names compare equal. *)
Definition lengthCompare (a b : string) : Z :=
  (Z.of_nat (String.length a) - Z.of_nat (String.length b))%Z.

(** A table with one record per code, in the order of the names. *)
Definition sorted_metadata : list MetadataItem :=
  [ {| country := "Austria"; country_code := "AT" |};
    {| country := "Czechia"; country_code := "CZ" |};
    {| country := "Sweden"; country_code := "SE" |} ].

End CountrySelection.

(* ================================================================= *)
(** ** src/components/DocumentBackCapture.tsx *)

Module DocumentBackCapture.

(** *** Data *)

(** Binary image data. *)
Definition Blob : Type := list Byte.byte.

(** What [captureImage] of [useCamera] resolves to when it is not [null]. *)
Record CaptureResult : Type := {
  result_blob : Blob;
  result_url : string
}.

(** [CapturedImage] of types/kyc, as line 48 builds it. *)
Record CapturedImage : Type := {
  blob : Blob;
  url : string;
  timestamp : Z
}.

(** [CaptureError] of ./ErrorPage, as lines 96 and 109 build it; the two
    string literals given to [type] are its categories. *)
Inductive ErrorType : Type :=
| validation
| network.

Record CaptureError : Type := {
  type : ErrorType;
  message : string;
  tips : list string
}.

(** The response of [processDocument]: [message] is the one field read. *)
Module Response.
Record t : Type := { message : option string }.
End Response.

(** The response of [processOCRDocument], which is never read. *)
Definition OcrResponse : Type := string.

(** A thrown value ([error: any]), by the two paths the handler reads:
    [error?.response?.data?.message] and [error?.message]. *)
Module Thrown.
Record t : Type := {
  response_data_message : option string;
  message : option string
}.
End Thrown.

(** The props that are data. [onError] is optional: [onError_given] says
    whether the parent passed it. *)
Record Props : Type := {
  verificationId : string;
  onError_given : bool
}.

(** The [useState] cells of the component, lines 31-36. *)
Record Hooks : Type := {
  capturedImage : option CapturedImage;
  isCapturing : bool;
  isUploading : bool;
  uploadError : option string;
  isClearImage : bool;
  captureError : option CaptureError
}.

Definition initial_hooks : Hooks :=
  {| capturedImage := None; isCapturing := false; isUploading := false;
     uploadError := None; isClearImage := false; captureError := None |}.

Definition with_capturedImage (v : option CapturedImage) (s : Hooks) : Hooks :=
  {| capturedImage := v; isCapturing := isCapturing s;
     isUploading := isUploading s; uploadError := uploadError s;
     isClearImage := isClearImage s; captureError := captureError s |}.

Definition with_isCapturing (v : bool) (s : Hooks) : Hooks :=
  {| capturedImage := capturedImage s; isCapturing := v;
     isUploading := isUploading s; uploadError := uploadError s;
     isClearImage := isClearImage s; captureError := captureError s |}.

Definition with_isUploading (v : bool) (s : Hooks) : Hooks :=
  {| capturedImage := capturedImage s; isCapturing := isCapturing s;
     isUploading := v; uploadError := uploadError s;
     isClearImage := isClearImage s; captureError := captureError s |}.

Definition with_uploadError (v : option string) (s : Hooks) : Hooks :=
  {| capturedImage := capturedImage s; isCapturing := isCapturing s;
     isUploading := isUploading s; uploadError := v;
     isClearImage := isClearImage s; captureError := captureError s |}.

Definition with_isClearImage (v : bool) (s : Hooks) : Hooks :=
  {| capturedImage := capturedImage s; isCapturing := isCapturing s;
     isUploading := isUploading s; uploadError := uploadError s;
     isClearImage := v; captureError := captureError s |}.

Definition with_captureError (v : option CaptureError) (s : Hooks) : Hooks :=
  {| capturedImage := capturedImage s; isCapturing := isCapturing s;
     isUploading := isUploading s; uploadError := uploadError s;
     isClearImage := isClearImage s; captureError := v |}.

(** *** Handlers as scripts *)

(** Calls that return at once: the camera hook, the props that are
    callbacks, and [URL.revokeObjectURL]. *)
Inductive SyncCall : Type :=
| startCamera (facingMode : string)
| stopCamera
| onCapture (image : CapturedImage)
| onNext
| onError (errorMessage : string)
| revokeObjectURL (objectUrl : string).

(** Calls whose promise the handler awaits. *)
Inductive AsyncCall : Type :=
| captureImage
| processDocument (image : Blob) (documentType : string) (verificationId : string)
| processOCRDocument (image : Blob) (uuid : string).

(** How a promise settles. *)
Inductive Settled (A : Type) : Type :=
| Resolved (value : A)
| Rejected (reason : Thrown.t).
Arguments Resolved {A} value.
Arguments Rejected {A} reason.

Definition Fulfilment (c : AsyncCall) : Type :=
  match c with
  | captureImage => option CaptureResult
  | processDocument _ _ _ => Response.t
  | processOCRDocument _ _ => OcrResponse
  end.

Inductive Script (A : Type) : Type :=
| Return (a : A)
| Throw (e : Thrown.t)
| SetState (f : Hooks -> Hooks) (k : Script A)
| Call (c : SyncCall) (k : Script A)
| Await (c : AsyncCall) (k : Settled (Fulfilment c) -> Script A).
Arguments Return {A} a.
Arguments Throw {A} e.
Arguments SetState {A} f k.
Arguments Call {A} c k.
Arguments Await {A} c k.

Fixpoint bind {A B : Type} (p : Script A) (q : A -> Script B) : Script B :=
  match p with
  | Return a => q a
  | Throw e => Throw e
  | SetState f k => SetState f (bind k q)
  | Call c k => Call c (bind k q)
  | Await c k => Await c (fun r => bind (k r) q)
  end.

Notation "x <- p ;; q" := (bind p (fun x => q))
  (at level 61, p at next level, right associativity).
Notation "p ;; q" := (bind p (fun _ => q))
  (at level 61, right associativity).

(** [try { p } catch (error) { handler error }]. *)
Fixpoint try_catch {A : Type} (p : Script A) (handler : Thrown.t -> Script A)
  : Script A :=
  match p with
  | Return a => Return a
  | Throw e => handler e
  | SetState f k => SetState f (try_catch k handler)
  | Call c k => Call c (try_catch k handler)
  | Await c k => Await c (fun r => try_catch (k r) handler)
  end.

(** [try { p } finally { cleanup }]: [cleanup] runs on both exits, and the
    exit of [p] stands. *)
Fixpoint try_finally {A : Type} (p : Script A) (cleanup : Script unit)
  : Script A :=
  match p with
  | Return a => cleanup ;; Return a
  | Throw e => cleanup ;; Throw e
  | SetState f k => SetState f (try_finally k cleanup)
  | Call c k => Call c (try_finally k cleanup)
  | Await c k => Await c (fun r => try_finally (k r) cleanup)
  end.

Definition try_catch_finally {A : Type} (p : Script A)
    (handler : Thrown.t -> Script A) (cleanup : Script unit) : Script A :=
  try_finally (try_catch p handler) cleanup.

Definition set (f : Hooks -> Hooks) : Script unit := SetState f (Return tt).
Definition call (c : SyncCall) : Script unit := Call c (Return tt).

(** [await c]: the value the promise resolves to, or its rejection thrown. *)
Definition await (c : AsyncCall) : Script (Fulfilment c) :=
  Await c (fun r =>
    match r with
    | Resolved v => Return v
    | Rejected e => Throw e
    end).

Definition setCapturedImage v := set (with_capturedImage v).
Definition setIsCapturing v := set (with_isCapturing v).
Definition setIsUploading v := set (with_isUploading v).
Definition setUploadError v := set (with_uploadError v).
Definition setIsClearImage v := set (with_isClearImage v).
Definition setCaptureError v := set (with_captureError v).

Definition not_clear_message : string := "Document is not clear. Please retake.".
Definition network_error_message : string := "Network error. Please try again.".
Definition validation_tips : list string :=
  ["Ensure the document is fully visible."; "Avoid glare or shadows."].
Definition network_tips : list string :=
  ["Check your internet connection."; "Try again later."].

(** [errorMessage], lines 104-107. *)
Definition errorMessage_of (error : Thrown.t) : string :=
  or_else (Thrown.response_data_message error)
          (or_else (Thrown.message error) network_error_message).

(** [handleCheckQuality], lines 71-118. [randomId] is what
    [crypto.randomUUID()], or the [Math.random()] expression in its place,
    evaluates to. *)
Definition handleCheckQuality (props : Props) (randomId : string)
    (image : option CapturedImage) : Script unit :=
  match image with
  | None => Return tt
  | Some image =>
      setIsUploading true ;;
      setUploadError None ;;
      setIsClearImage false ;;
      setCaptureError None ;;
      try_catch_finally
        (response <- await (processDocument (blob image) "document-back"
                                            (verificationId props)) ;;
         if strict_eq (Response.message response) "CLEAR IMAGE" then
           setIsClearImage true ;;
           let uuid := "ML_" ++ randomId in
           ocrResponse <- await (processOCRDocument (blob image) uuid) ;;
           call stopCamera ;;
           call onNext
         else
           setUploadError
             (Some (or_else (Response.message response) not_clear_message)) ;;
           setCaptureError
             (Some {| type := validation;
                      message := or_else (Response.message response)
                                         not_clear_message;
                      tips := validation_tips |}) ;;
           if onError_given props
           then call (onError (or_else (Response.message response)
                                       not_clear_message))
           else Return tt)
        (fun error =>
           let errorMessage := errorMessage_of error in
           setUploadError (Some errorMessage) ;;
           setCaptureError
             (Some {| type := network;
                      message := errorMessage;
                      tips := network_tips |}) ;;
           if onError_given props then call (onError errorMessage)
           else Return tt)
        (setIsUploading false)
  end.

(** [handleCapture], lines 43-58. [date] is what [new Date()] gives. *)
Definition handleCapture (props : Props) (date : Z) (randomId : string)
  : Script unit :=
  setIsCapturing true ;;
  result <- await captureImage ;;
  match result with
  | Some result =>
      let image := {| blob := result_blob result; url := result_url result;
                      timestamp := date |} in
      setCapturedImage (Some image) ;;
      call (onCapture image) ;;
      handleCheckQuality props randomId (Some image)
  | None => Return tt
  end ;;
  setIsCapturing false.

(** [handleRetake], lines 60-69. [capturedImage] is the value the closure
    holds: the one of the render the handler belongs to. *)
Definition handleRetake (capturedImage : option CapturedImage) : Script unit :=
  match capturedImage with
  | Some image => call (revokeObjectURL (url image))
  | None => Return tt
  end ;;
  setCapturedImage None ;;
  setUploadError None ;;
  setIsClearImage false ;;
  setCaptureError None ;;
  call (startCamera "environment").

(** [onRetry] and [onBack] of the error page, lines 139-146: the same
    function. *)
Definition onRetry (capturedImage : option CapturedImage) : Script unit :=
  setCaptureError None ;;
  handleRetake capturedImage.

(** [disabled] of the capture button, line 248. *)
Definition capture_disabled (isStreaming : bool) (s : Hooks) : bool :=
  negb isStreaming || isCapturing s || isUploading s.

(** *** Running a handler *)

(** What a handler does that the outside sees, in order: the calls it
    makes and the promises it starts to await. *)
Inductive Event : Type :=
| Called (c : SyncCall)
| Awaited (c : AsyncCall).

(** How the platform settles each awaited call. *)
Definition Environment : Type := forall c : AsyncCall, Settled (Fulfilment c).

Definition settle (capture : Settled (option CaptureResult))
    (document : Settled Response.t) (ocr : Settled OcrResponse)
  : Environment :=
  fun c =>
    match c as c0 return Settled (Fulfilment c0) with
    | captureImage => capture
    | processDocument _ _ _ => document
    | processOCRDocument _ _ => ocr
    end.

(** A handler run to its end: the state it leaves, what it did, and how
    its own promise settles. *)
Record Run (A : Type) : Type := {
  state : Hooks;
  trace : list Event;
  completion : Settled A
}.
Arguments state {A} r.
Arguments trace {A} r.
Arguments completion {A} r.

Definition logged {A : Type} (e : Event) (r : Run A) : Run A :=
  {| state := state r; trace := e :: trace r; completion := completion r |}.

Fixpoint run {A : Type} (env : Environment) (p : Script A) (s : Hooks) : Run A :=
  match p with
  | Return a => {| state := s; trace := []; completion := Resolved a |}
  | Throw e => {| state := s; trace := []; completion := Rejected e |}
  | SetState f k => run env k (f s)
  | Call c k => logged (Called c) (run env k s)
  | Await c k => logged (Awaited c) (run env (k (env c)) s)
  end.

Definition is_onNext (e : Event) : bool :=
  match e with
  | Called onNext => true
  | _ => false
  end.

Definition is_stopCamera (e : Event) : bool :=
  match e with
  | Called stopCamera => true
  | _ => false
  end.

Definition is_processDocument (e : Event) : bool :=
  match e with
  | Awaited (processDocument _ _ _) => true
  | _ => false
  end.

Definition is_processOCRDocument (e : Event) : bool :=
  match e with
  | Awaited (processOCRDocument _ _) => true
  | _ => false
  end.

Definition count (f : Event -> bool) (t : list Event) : nat :=
  List.length (filter f t).

(** Every event of [t] that satisfies [g] has one that satisfies [f]
    before it ([f] and [g] pick different events). *)
Fixpoint always_before (f g : Event -> bool) (t : list Event) : bool :=
  match t with
  | [] => true
  | e :: t' =>
      if f e then true
      else if g e then false
      else always_before f g t'
  end.

(** The wizard advances: [onNext] once, and [stopCamera] before it. *)
Definition advances_once (t : list Event) : Prop :=
  count is_onNext t = 1 /\ always_before is_stopCamera is_onNext t = true.

(** *** The screen between events *)

(** A handler stopped at an [await]. *)
Inductive Outcome (A : Type) : Type :=
| Finished (a : A)
| Failed (e : Thrown.t)
| Suspended (c : AsyncCall) (k : Settled (Fulfilment c) -> Script A).
Arguments Finished {A} a.
Arguments Failed {A} e.
Arguments Suspended {A} c k.

Record Segment (A : Type) : Type := {
  seg_state : Hooks;
  seg_trace : list Event;
  seg_outcome : Outcome A
}.
Arguments seg_state {A} s.
Arguments seg_trace {A} s.
Arguments seg_outcome {A} s.

(** A script runs without interruption up to its next [await]. *)
Fixpoint advance {A : Type} (p : Script A) (s : Hooks) : Segment A :=
  match p with
  | Return a => {| seg_state := s; seg_trace := []; seg_outcome := Finished a |}
  | Throw e => {| seg_state := s; seg_trace := []; seg_outcome := Failed e |}
  | SetState f k => advance k (f s)
  | Call c k =>
      let r := advance k s in
      {| seg_state := seg_state r; seg_trace := Called c :: seg_trace r;
         seg_outcome := seg_outcome r |}
  | Await c k =>
      {| seg_state := s; seg_trace := [Awaited c]; seg_outcome := Suspended c k |}
  end.

Record Task : Type := {
  awaiting : AsyncCall;
  continuation : Settled (Fulfilment awaiting) -> Script unit
}.

Definition suspended (o : Outcome unit) : list Task :=
  match o with
  | Suspended c k => [{| awaiting := c; continuation := k |}]
  | _ => []
  end.

(** The mounted screen: the state cells, the values of the last render
    (what the page shows and what the closures of its handlers hold),
    [isStreaming] of [useCamera], the handlers stopped at an [await], and
    everything done so far. *)
Record Screen : Type := {
  hooks : Hooks;
  rendered : Hooks;
  isStreaming : bool;
  pending : list Task;
  history : list Event
}.

(** After the mount: the effect of line 38 has started the camera. *)
Definition mounted : Screen :=
  {| hooks := initial_hooks; rendered := initial_hooks; isStreaming := false;
     pending := []; history := [Called (startCamera "environment")] |}.

(** One thing happens to the screen.
    - [step_camera]: the camera hook changes [isStreaming].
    - [step_render]: React renders the current state.
    - [step_capture]: the capture button is on the page and enabled, and
      is clicked; React renders the updates of a click before the next
      event.
    - [step_retry]: the error page is shown and one of its two actions is
      taken.
    - [step_settle]: an awaited promise settles and its handler goes on. *)
Inductive step (props : Props) : Screen -> Screen -> Prop :=
| step_camera sc b :
    step props sc
      {| hooks := hooks sc; rendered := rendered sc; isStreaming := b;
         pending := pending sc; history := history sc |}
| step_render sc :
    step props sc
      {| hooks := hooks sc; rendered := hooks sc; isStreaming := isStreaming sc;
         pending := pending sc; history := history sc |}
| step_capture sc date randomId :
    captureError (rendered sc) = None ->
    capturedImage (rendered sc) = None ->
    capture_disabled (isStreaming sc) (rendered sc) = false ->
    step props sc
      (let r := advance (handleCapture props date randomId) (hooks sc) in
       {| hooks := seg_state r; rendered := seg_state r;
          isStreaming := isStreaming sc;
          pending := pending sc ++ suspended (seg_outcome r);
          history := history sc ++ seg_trace r |})
| step_retry sc :
    captureError (rendered sc) <> None ->
    step props sc
      (let r := advance (onRetry (capturedImage (rendered sc))) (hooks sc) in
       {| hooks := seg_state r; rendered := seg_state r;
          isStreaming := isStreaming sc;
          pending := pending sc ++ suspended (seg_outcome r);
          history := history sc ++ seg_trace r |})
| step_settle sc earlier t later settled :
    pending sc = (earlier ++ t :: later)%list ->
    step props sc
      (let r := advance (continuation t settled) (hooks sc) in
       {| hooks := seg_state r; rendered := rendered sc;
          isStreaming := isStreaming sc;
          pending := earlier ++ suspended (seg_outcome r) ++ later;
          history := history sc ++ seg_trace r |}).

Inductive reachable (props : Props) : Screen -> Prop :=
| reachable_mounted : reachable props mounted
| reachable_step sc sc' :
    reachable props sc -> step props sc sc' -> reachable props sc'.

(** Quality checks that were sent and have not settled. *)
Definition awaits_processDocument (t : Task) : bool :=
  match awaiting t with
  | processDocument _ _ _ => true
  | _ => false
  end.

Definition uploads_in_flight (sc : Screen) : nat :=
  List.length (filter awaits_processDocument (pending sc)).

(** [isCapturing] is set at every [await] the script reaches, whatever
    the promises settle to, as long as nothing else clears it. *)
Fixpoint capturing_while_pending {A : Type} (p : Script A) (s : Hooks) : Prop :=
  match p with
  | Return _ => True
  | Throw _ => True
  | SetState f k => capturing_while_pending k (f s)
  | Call _ k => capturing_while_pending k s
  | Await c k =>
      isCapturing s = true /\
      forall r s', isCapturing s' = true -> capturing_while_pending (k r) s'
  end.

(** *** Concrete values for the examples *)

Definition example_props : Props :=
  {| verificationId := "verif-001"; onError_given := true |}.

Definition example_image : CapturedImage :=
  {| blob := [Byte.xff; Byte.xd8]; url := "blob:doc-back-1"; timestamp := 1700000000000%Z |}.

Definition example_result : CaptureResult :=
  {| result_blob := [Byte.xff; Byte.xd8]; result_url := "blob:doc-back-1" |}.

Definition clear_image : Response.t := {| Response.message := Some "CLEAR IMAGE" |}.

Definition blurry_image : Response.t := {| Response.message := Some "Blurry image" |}.

Definition bare_failure : Thrown.t :=
  {| Thrown.response_data_message := None; Thrown.message := None |}.

Definition timeout_failure : Thrown.t :=
  {| Thrown.response_data_message := None;
     Thrown.message := Some "timeout of 30000ms exceeded" |}.

(** The camera streams, then the capture button is clicked. *)
Definition streaming_screen : Screen :=
  {| hooks := hooks mounted; rendered := rendered mounted; isStreaming := true;
     pending := pending mounted; history := history mounted |}.

Definition capturing_screen : Screen :=
  let r := advance (handleCapture example_props 1700000000000%Z "4f9c2d")
                   (hooks streaming_screen) in
  {| hooks := seg_state r; rendered := seg_state r;
     isStreaming := isStreaming streaming_screen;
     pending := pending streaming_screen ++ suspended (seg_outcome r);
     history := history streaming_screen ++ seg_trace r |}.

(** The promise the first stopped handler awaits settles as [env] says. *)
Definition settle_first (env : Environment) (sc : Screen) : Screen :=
  match pending sc with
  | [] => sc
  | t :: later =>
      let r := advance (continuation t (env (awaiting t))) (hooks sc) in
      {| hooks := seg_state r; rendered := rendered sc;
         isStreaming := isStreaming sc;
         pending := [] ++ suspended (seg_outcome r) ++ later;
         history := history sc ++ seg_trace r |}
  end.

(** What holds of the screen between events: no handler is stopped at an
    [await], or one is, and then [isCapturing] is set, in the state and on
    the page, and stays set for as long as that handler is stopped. *)
Definition one_cycle (sc : Screen) : Prop :=
  pending sc = [] \/
  exists t,
    pending sc = [t] /\
    isCapturing (hooks sc) = true /\
    isCapturing (rendered sc) = true /\
    forall r s', isCapturing s' = true ->
                 capturing_while_pending (continuation t r) s'.

(** *** The outcome of a quality check *)


(** The image was rejected with [text]: no flag, no OCR submission, no
    [stopCamera], no [onNext], and the validation error with that text. *)
Definition rejected (text : string) (r : Run unit) : Prop :=
  isClearImage (state r) = false /\
  count is_processOCRDocument (trace r) = 0 /\
  count is_stopCamera (trace r) = 0 /\
  count is_onNext (trace r) = 0 /\
  captureError (state r) =
    Some {| type := validation; message := text; tips := validation_tips |} /\
  uploadError (state r) = Some text.

(** *** The page *)

(** What the component reads of [useCamera] when it renders. *)
Module Camera.
Record t : Type := {
  isStreaming : bool;
  isLoading : bool;
  error : option string
}.
End Camera.

(** [{text && <div>...{text}</div>}]: a banner for a text that is there
    and not empty. *)
Definition banner (text : option string) : option string :=
  match text with
  | Some t => if truthy t then Some t else None
  | None => None
  end.

(** The camera section, lines 190-219: the live video, with the spinner
    while the camera loads, or the captured image. *)
Inductive Preview : Type :=
| video (spinner : bool)
| img (src : string).

(** The capture button, lines 246-262. *)
Record Button : Type := {
  disabled : bool;
  label : string
}.

Record CapturePage : Type := {
  preview : Preview;
  camera_error : option string;
  upload_error : option string;
  processing : bool;
  button : option Button
}.

Inductive View : Type :=
| error_page (error : CaptureError)
| capture_page (page : CapturePage).

(** The render, lines 120-280, without the fixed header, title and
    footer. *)
Definition render (camera : Camera.t) (s : Hooks) : View :=
  match captureError s with
  | Some error => error_page error
  | None =>
      capture_page
        {| preview :=
             match capturedImage s with
             | None => video (Camera.isLoading camera)
             | Some image => img (url image)
             end;
           camera_error := banner (Camera.error camera);
           upload_error := banner (uploadError s);
           processing := isUploading s;
           button :=
             match capturedImage s with
             | None =>
                 Some {| disabled := capture_disabled (Camera.isStreaming camera) s;
                         label := if isCapturing s then "Capturing..."
                                  else "Capture Document" |}
             | Some _ => None
             end |}
  end.

(** The page offers nothing to click: it is the capture page, and its
    button is absent or disabled. *)
Definition no_action (v : View) : Prop :=
  match v with
  | error_page _ => False
  | capture_page page =>
      match button page with
      | None => True
      | Some b => disabled b = true
      end
  end.

(** *** Reading a history *)

(** The messages [onError] was called with. *)
Definition onError_messages (t : list Event) : list string :=
  flat_map (fun e => match e with
                     | Called (onError errorMessage) => [errorMessage]
                     | _ => []
                     end) t.

(** The images [onCapture] was called with. *)
Definition captured_images (t : list Event) : list CapturedImage :=
  flat_map (fun e => match e with
                     | Called (onCapture image) => [image]
                     | _ => []
                     end) t.

(** The object URLs the screen was given, one per captured image. *)
Definition captured_urls (t : list Event) : list string :=
  map url (captured_images t).

(** The object URLs the screen revoked. *)
Definition revoked_urls (t : list Event) : list string :=
  flat_map (fun e => match e with
                     | Called (revokeObjectURL objectUrl) => [objectUrl]
                     | _ => []
                     end) t.

(** The object URL of the image the screen holds. *)
Definition current_url (s : Hooks) : list string :=
  match capturedImage s with
  | Some image => [url image]
  | None => []
  end.

(** *** What the screen keeps between events *)

(** Every URL the screen was given is revoked, but for the one it holds. *)
Definition urls_accounted (s : Hooks) (h : list Event) : Prop :=
  captured_urls h = (revoked_urls h ++ current_url s)%list.

(** [uploadError] is the message of [captureError]. *)
Definition errors_agree (s : Hooks) : Prop :=
  uploadError s = option_map message (captureError s).

(** No handler is stopped: no upload is marked as outstanding; and the
    wizard has not advanced, and the screen holds no image or shows an
    error; or it has advanced, once, holding the image and showing no
    error. *)
Definition idle_ok (s : Hooks) (h : list Event) : Prop :=
  urls_accounted s h /\
  errors_agree s /\
  isUploading s = false /\
  ((count is_onNext h = 0 /\ (capturedImage s = None \/ captureError s <> None)) \/
   (count is_onNext h = 1 /\ capturedImage s <> None /\ captureError s = None)).

(** A handler is stopped awaiting [c]. *)
Definition pending_ok (c : AsyncCall) (s : Hooks) (h : list Event) : Prop :=
  urls_accounted s h /\
  errors_agree s /\
  count is_onNext h = 0 /\
  isCapturing s = true /\
  captureError s = None /\
  match c with
  | captureImage => capturedImage s = None /\ isUploading s = false
  | _ => capturedImage s <> None
  end.

(** A script started in state [s] after the events [h]: wherever it stops
    at an [await] [pending_ok] holds, it goes on well from any state that
    [pending_ok] holds of, and where it ends [idle_ok] holds. *)
Fixpoint respects {A : Type} (p : Script A) (s : Hooks) (h : list Event) : Prop :=
  match p with
  | Return _ => idle_ok s h
  | Throw _ => idle_ok s h
  | SetState f k => respects k (f s) h
  | Call c k => respects k s (h ++ [Called c])
  | Await c k =>
      pending_ok c s (h ++ [Awaited c]) /\
      forall r s' h', pending_ok c s' h' -> respects (k r) s' h'
  end.

(** The page on display is the current state, or one from the cycle in
    progress or just over. *)
Definition render_ok (sc : Screen) : Prop :=
  errors_agree (rendered sc) /\
  (rendered sc = hooks sc \/
   (isCapturing (rendered sc) = true /\ captureError (rendered sc) = None)).

Definition screen_ok (sc : Screen) : Prop :=
  render_ok sc /\
  ((pending sc = [] /\ idle_ok (hooks sc) (history sc)) \/
   exists t,
     pending sc = [t] /\
     pending_ok (awaiting t) (hooks sc) (history sc) /\
     isCapturing (rendered sc) = true /\
     captureError (rendered sc) = None /\
     forall r s' h', pending_ok (awaiting t) s' h' ->
                     respects (continuation t r) s' h').

(** *** More screens for the examples *)

Definition blurry_environment : Environment :=
  settle (Resolved (Some example_result)) (Resolved blurry_image) (Resolved "{}").

(** The image is captured and its quality check is in flight. *)
Definition uploading_screen : Screen :=
  settle_first blurry_environment capturing_screen.

(** The quality check came back as blurry and the page was rendered. *)
Definition rejected_screen : Screen :=
  let sc := settle_first blurry_environment uploading_screen in
  {| hooks := hooks sc; rendered := hooks sc; isStreaming := isStreaming sc;
     pending := pending sc; history := history sc |}.

(** The user took the retake. *)
Definition retaken_screen : Screen :=
  let r := advance (onRetry (capturedImage (rendered rejected_screen)))
                   (hooks rejected_screen) in
  {| hooks := seg_state r; rendered := seg_state r;
     isStreaming := isStreaming rejected_screen;
     pending := pending rejected_screen ++ suspended (seg_outcome r);
     history := history rejected_screen ++ seg_trace r |}.

Definition clear_environment : Environment :=
  settle (Resolved (Some example_result)) (Resolved clear_image) (Resolved "{}").

(** The quality check and the OCR submission went through. *)
Definition accepted_screen : Screen :=
  settle_first clear_environment
    (settle_first clear_environment
       (settle_first clear_environment capturing_screen)).

Definition example_camera : Camera.t :=
  {| Camera.isStreaming := true; Camera.isLoading := false; Camera.error := None |}.

End DocumentBackCapture.

(* ================================================================= *)
(** ** Properties of the country-selection screen *)

Module CountrySelectionFacts.
Import CountrySelection.

(** *** The map *)

Lemma map_set_keys k v m :
  map fst (map_set k v m) =
  if in_dec string_dec k (map fst m) then map fst m
  else (map fst m ++ [k])%list.
Proof.
  induction m as [|[k' v'] m IH]; simpl; [reflexivity|].
  destruct (String.eqb_spec k' k) as [->|Hne]; simpl.
  - destruct (string_dec k k); [|congruence].
    reflexivity.
  - rewrite IH.
    destruct (string_dec k' k); [congruence|].
    destruct (in_dec string_dec k (map fst m)); reflexivity.
Qed.

Lemma map_set_NoDup k v m :
  NoDup (map fst m) -> NoDup (map fst (map_set k v m)).
Proof.
  intros Hnd. rewrite map_set_keys.
  destruct (in_dec string_dec k (map fst m)) as [Hin|Hout]; [assumption|].
  apply NoDup_app; [assumption | repeat constructor; intros [] | ].
  intros x Hx [<-|[]]. contradiction.
Qed.

Lemma fold_map_set_NoDup es m :
  NoDup (map fst m) ->
  NoDup (map fst (fold_left (fun m e => map_set (fst e) (snd e) m) es m)).
Proof.
  revert m. induction es as [|e es IH]; intros m Hnd; simpl; [assumption|].
  apply IH, map_set_NoDup, Hnd.
Qed.

Lemma new_Map_NoDup es : NoDup (map fst (new_Map es)).
Proof. apply fold_map_set_NoDup. constructor. Qed.

Lemma map_get_set k k' v m :
  map_get k (map_set k' v m) = if String.eqb k' k then Some v else map_get k m.
Proof.
  induction m as [|[k0 v0] m IH]; simpl.
  - destruct (String.eqb k' k); reflexivity.
  - destruct (String.eqb_spec k0 k') as [->|Hne]; simpl.
    + destruct (String.eqb k' k); reflexivity.
    + rewrite IH.
      destruct (String.eqb_spec k0 k) as [->|Hne'].
      * destruct (String.eqb_spec k' k); [congruence | reflexivity].
      * reflexivity.
Qed.

Lemma map_get_fold_other k es m :
  (forall e, In e es -> fst e <> k) ->
  map_get k (fold_left (fun m e => map_set (fst e) (snd e) m) es m) = map_get k m.
Proof.
  revert m. induction es as [|e es IH]; intros m Hother; simpl; [reflexivity|].
  rewrite IH by (intros e' He'; apply Hother; right; exact He').
  rewrite map_get_set.
  destruct (String.eqb_spec (fst e) k) as [Heq|_]; [|reflexivity].
  exfalso. apply (Hother e); [left; reflexivity | exact Heq].
Qed.

Lemma map_get_In k v m :
  NoDup (map fst m) -> (In (k, v) m <-> map_get k m = Some v).
Proof.
  induction m as [|[k0 v0] m IH]; simpl; intros Hnd.
  - split; [intros [] | discriminate].
  - inversion Hnd as [|? ? Hout Hnd']; subst.
    destruct (String.eqb_spec k0 k) as [->|Hne].
    + split.
      * intros [Heq|Hin]; [congruence|].
        exfalso. apply Hout. change k with (fst (k, v)). apply in_map, Hin.
      * intros [= ->]. left; reflexivity.
    + rewrite <- (IH Hnd'). split.
      * intros [Heq|Hin]; [congruence | exact Hin].
      * intros Hin; right; exact Hin.
Qed.

(** *** The sort *)

Lemma sort_insert_perm {A} (cmp : A -> A -> Z) x l :
  Permutation (x :: l) (sort_insert cmp x l).
Proof.
  induction l as [|y l IH]; simpl; [reflexivity|].
  destruct (cmp x y <=? 0)%Z; [reflexivity|].
  rewrite perm_swap. apply perm_skip, IH.
Qed.

Lemma sort_perm {A} (cmp : A -> A -> Z) l : Permutation l (sort cmp l).
Proof.
  induction l as [|x l IH]; simpl; [reflexivity|].
  rewrite <- sort_insert_perm. apply perm_skip, IH.
Qed.

Section Sorting.
Context {A : Type} (cmp : A -> A -> Z).
Hypothesis cmp_total : forall a b, in_order cmp a b \/ in_order cmp b a.

Lemma sort_insert_HdRel x y l :
  in_order cmp y x -> HdRel (in_order cmp) y l ->
  HdRel (in_order cmp) y (sort_insert cmp x l).
Proof.
  intros Hyx Hhd. destruct l as [|z l]; simpl.
  - constructor. exact Hyx.
  - destruct (cmp x z <=? 0)%Z; constructor.
    + exact Hyx.
    + inversion Hhd; assumption.
Qed.

Lemma sort_insert_Sorted x l :
  Sorted (in_order cmp) l -> Sorted (in_order cmp) (sort_insert cmp x l).
Proof.
  induction l as [|y l IH]; simpl; intros Hs.
  - repeat constructor.
  - inversion Hs as [|? ? Hs' Hhd]; subst.
    destruct (Z.leb_spec (cmp x y) 0) as [Hle|Hgt].
    + constructor; [exact Hs | constructor; exact Hle].
    + constructor; [apply IH, Hs'|].
      apply sort_insert_HdRel; [|exact Hhd].
      destruct (cmp_total x y) as [H|H]; [unfold in_order in H; lia | exact H].
Qed.

Lemma sort_Sorted l : Sorted (in_order cmp) (sort cmp l).
Proof.
  induction l as [|x l IH]; simpl; [constructor|].
  apply sort_insert_Sorted, IH.
Qed.
End Sorting.

Lemma codePointCompare_total a b :
  (codePointCompare a b <= 0)%Z \/ (codePointCompare b a <= 0)%Z.
Proof.
  unfold codePointCompare. rewrite (String.compare_antisym a b).
  destruct (String.compare b a); simpl; lia.
Qed.

(** *** The list of countries *)

(** C7. Whatever the metadata table holds, no two entries of [countries]
    have the same country code, and each entry's display name compares
    less than or equal to the next one's under [localeCompare], provided
    [localeCompare] orders any two names one way or the other. *)
Theorem countries_unique_sorted
    (localeCompare : string -> string -> Z)
    (localeCompare_total :
       forall a b, (localeCompare a b <= 0)%Z \/ (localeCompare b a <= 0)%Z)
    (metadata : list MetadataItem) :
  NoDup (map fst (countries localeCompare metadata)) /\
  Sorted (fun a b => (localeCompare (snd a) (snd b) <= 0)%Z)
         (countries localeCompare metadata).
Proof.
  unfold countries, entries. split.
  - eapply Permutation_NoDup.
    + apply Permutation_map, sort_perm.
    + apply new_Map_NoDup.
  - apply (sort_Sorted (fun a b => localeCompare (snd a) (snd b))).
    intros a b. apply localeCompare_total.
Qed.

Lemma countries_unique_sorted_example :
  NoDup (map fst (countries codePointCompare example_metadata)) /\
  Sorted (fun a b => (codePointCompare (snd a) (snd b) <= 0)%Z)
         (countries codePointCompare example_metadata).
Proof.
  exact (countries_unique_sorted codePointCompare codePointCompare_total
                                 example_metadata).
Defined.

Example countries_of_example_metadata :
  countries codePointCompare example_metadata =
  [("AT", "Austria"); ("CZ", "Czechia"); ("SE", "Sweden")].
Proof. reflexivity. Qed.

(** With a transitive [localeCompare], every entry is in order with every
    later one. *)
Lemma countries_strongly_sorted
    (localeCompare : string -> string -> Z)
    (localeCompare_total :
       forall a b, (localeCompare a b <= 0)%Z \/ (localeCompare b a <= 0)%Z)
    (localeCompare_trans :
       forall a b c, (localeCompare a b <= 0)%Z -> (localeCompare b c <= 0)%Z ->
                     (localeCompare a c <= 0)%Z)
    (metadata : list MetadataItem) :
  StronglySorted (fun a b => (localeCompare (snd a) (snd b) <= 0)%Z)
                 (countries localeCompare metadata).
Proof.
  apply Sorted_StronglySorted.
  - intros a b c. apply localeCompare_trans.
  - apply (sort_Sorted (fun a b => localeCompare (snd a) (snd b))).
    intros a b. apply localeCompare_total.
Qed.

Lemma countries_In localeCompare metadata code name :
  In (code, name) (countries localeCompare metadata) <->
  map_get code
    (new_Map (map (fun item => (country_code item, country item)) metadata))
  = Some name.
Proof.
  unfold countries, entries.
  rewrite <- map_get_In by apply new_Map_NoDup.
  split; apply Permutation_in; [symmetry|]; apply sort_perm.
Qed.

(** C10. When a country code occurs in several records of the table, the
    list shows the name of the last of them: for a record that no later
    record shares its code with, the entry of that code carries that
    record's name and no other. *)
Theorem countries_last_name_wins
    (localeCompare : string -> string -> Z)
    (metadata earlier later : list MetadataItem) (item : MetadataItem)
    (name : string) :
  metadata = (earlier ++ item :: later)%list ->
  (forall other, In other later -> country_code other <> country_code item) ->
  (In (country_code item, name) (countries localeCompare metadata) <->
   name = country item).
Proof.
  intros -> Hlast. rewrite countries_In.
  unfold new_Map. rewrite map_app, fold_left_app. simpl.
  rewrite map_get_fold_other.
  - rewrite map_get_set, String.eqb_refl. split; congruence.
  - intros e He. apply in_map_iff in He as [other [<- Hin]]. simpl.
    apply Hlast, Hin.
Qed.

Lemma countries_last_name_wins_example :
  In ("CZ", "Czechia") (countries codePointCompare example_metadata) <->
  "Czechia" = "Czechia".
Proof.
  apply (countries_last_name_wins codePointCompare example_metadata
           [ {| country := "Sweden"; country_code := "SE" |};
             {| country := "Czech Republic"; country_code := "CZ" |};
             {| country := "Austria"; country_code := "AT" |} ]
           [ {| country := "Sweden"; country_code := "SE" |} ]
           {| country := "Czechia"; country_code := "CZ" |}
           "Czechia").
  - reflexivity.
  - simpl. intros other [<-|[]]. simpl. discriminate.
Defined.

(** *** The change handler *)

Lemma truthy_nonempty value : value <> "" -> truthy value = true.
Proof.
  intros Hne. unfold truthy.
  destruct (String.eqb_spec value ""); [contradiction | reflexivity].
Qed.

(** C8. When a country value that is not empty is selected and no timer is
    pending, [onSelectCountryCode] is called with that value at once; no
    [onNext] follows in the first 100 milliseconds; once 100 milliseconds
    have passed [onNext] has been called, and it is called once however
    much more time passes. *)
Theorem handleChange_advances_once (value : string) (l : Loop) :
  value <> "" ->
  timers l = [] ->
  let selected := change value l in
  calls selected = (calls l ++ [called_onSelectCountryCode value])%list /\
  (forall d, d < 100 -> calls (elapse d selected) = calls selected) /\
  (forall d, 100 <= d ->
     calls (elapse d selected) = (calls selected ++ [called_onNext])%list /\
     timers (elapse d selected) = []) /\
  (forall d d', 100 <= d ->
     count_onNext (calls (elapse d' (elapse d selected))) =
     count_onNext (calls l) + 1).
Proof.
  intros Hne Hidle. unfold change, handleChange.
  rewrite (truthy_nonempty value Hne). simpl. rewrite Hidle. simpl.
  split; [reflexivity|]. split; [|split].
  - intros d Hd. unfold elapse. simpl.
    destruct (Nat.leb_spec (now l + 100) (now l + d)) as [Hle|_]; [lia|].
    simpl. apply app_nil_r.
  - intros d Hd. unfold elapse. simpl.
    destruct (Nat.leb_spec (now l + 100) (now l + d)) as [_|Hlt]; [|lia].
    simpl. split; reflexivity.
  - intros d d' Hd. unfold elapse. simpl.
    destruct (Nat.leb_spec (now l + 100) (now l + d)) as [_|Hlt]; [|lia].
    simpl. unfold count_onNext.
    rewrite app_nil_r, !filter_app, !length_app. simpl. lia.
Qed.

Lemma handleChange_advances_once_example :
  let selected := change "SE" idle_loop in
  calls selected = [called_onSelectCountryCode "SE"] /\
  (forall d, d < 100 -> calls (elapse d selected) = calls selected) /\
  (forall d, 100 <= d ->
     calls (elapse d selected) = (calls selected ++ [called_onNext])%list /\
     timers (elapse d selected) = []) /\
  (forall d d', 100 <= d ->
     count_onNext (calls (elapse d' (elapse d selected))) = 0 + 1).
Proof.
  apply (handleChange_advances_once "SE" idle_loop).
  - discriminate.
  - reflexivity.
Defined.

(** The empty value selects and sets no timer. *)
Example handleChange_empty_value : handleChange "" = [onSelectCountryCode ""].
Proof. reflexivity. Qed.

(** *** More on the list of countries *)

Lemma map_set_keys_In k k' v m :
  In k (map fst (map_set k' v m)) <-> In k (map fst m) \/ k = k'.
Proof.
  rewrite map_set_keys.
  destruct (in_dec string_dec k' (map fst m)) as [Hin|Hout].
  - split; [auto | intros [H| ->]; assumption].
  - rewrite in_app_iff. simpl. split.
    + intros [H|[H|[]]]; auto.
    + intros [H|H]; auto.
Qed.

Lemma fold_map_set_keys_In k es m :
  In k (map fst (fold_left (fun m e => map_set (fst e) (snd e) m) es m)) <->
  In k (map fst m) \/ In k (map fst es).
Proof.
  revert m. induction es as [|e es IH]; intros m; simpl.
  - split; [auto | intros [H|[]]; exact H].
  - rewrite IH, map_set_keys_In. split.
    + intros [[H|H]|H]; auto.
    + intros [H|[H|H]]; auto.
Qed.

Lemma new_Map_keys_In k es : In k (map fst (new_Map es)) <-> In k (map fst es).
Proof.
  unfold new_Map. rewrite fold_map_set_keys_In. simpl.
  split; [intros [[]|H]; exact H | auto].
Qed.

Lemma map_get_None k m : map_get k m = None <-> ~ In k (map fst m).
Proof.
  induction m as [|[k' v'] m IH]; simpl.
  - split; [intros _ [] | reflexivity].
  - destruct (String.eqb_spec k' k) as [->|Hne].
    + split; [discriminate | intros H; exfalso; apply H; left; reflexivity].
    + rewrite IH. split.
      * intros H [Heq|Hin]; [congruence | exact (H Hin)].
      * intros H Hin. apply H. right. exact Hin.
Qed.

Lemma find_by_key_unique k v (l : list (string * string)) :
  NoDup (map fst l) -> In (k, v) l ->
  find (fun entry => String.eqb (fst entry) k) l = Some (k, v).
Proof.
  induction l as [|[k' v'] l IH]; simpl; intros Hnd Hin; [contradiction|].
  inversion Hnd as [|? ? Hout Hnd']; subst.
  destruct (String.eqb_spec k' k) as [->|Hne].
  - destruct Hin as [Heq|Hin]; [congruence|].
    exfalso. apply Hout. change k with (fst (k, v)). apply in_map, Hin.
  - destruct Hin as [Heq|Hin]; [congruence|]. apply IH; assumption.
Qed.

Lemma find_by_key_none k (l : list (string * string)) :
  ~ In k (map fst l) ->
  find (fun entry => String.eqb (fst entry) k) l = None.
Proof.
  induction l as [|[k' v'] l IH]; simpl; intros Hout; [reflexivity|].
  destruct (String.eqb_spec k' k) as [->|Hne].
  - exfalso. apply Hout. left. reflexivity.
  - apply IH. intros Hin. apply Hout. right. exact Hin.
Qed.

Lemma countries_keys_In localeCompare metadata code :
  In code (map fst (countries localeCompare metadata)) <->
  In code (map country_code metadata).
Proof.
  unfold countries, entries.
  transitivity
    (In code (map fst (new_Map
       (map (fun item => (country_code item, country item)) metadata)))).
  - split; apply Permutation_in, Permutation_map;
      [symmetry|]; apply sort_perm.
  - rewrite new_Map_keys_In, map_map. simpl. reflexivity.
Qed.

Lemma find_name_get localeCompare metadata code :
  find_name localeCompare metadata code =
  map_get code
    (new_Map (map (fun item => (country_code item, country item)) metadata)).
Proof.
  unfold find_name.
  assert (Hnd : NoDup (map fst (countries localeCompare metadata))).
  { unfold countries, entries. eapply Permutation_NoDup.
    - apply Permutation_map, sort_perm.
    - apply new_Map_NoDup. }
  destruct (map_get code _) as [name|] eqn:Hget.
  - pose proof (proj2 (countries_In localeCompare metadata code name) Hget) as Hin.
    rewrite (find_by_key_unique code name _ Hnd Hin). reflexivity.
  - apply map_get_None in Hget. rewrite new_Map_keys_In, map_map in Hget.
    simpl in Hget. rewrite find_by_key_none; [reflexivity|].
    rewrite countries_keys_In. exact Hget.
Qed.

(** X1. The list has an entry for a code exactly when some record of the
    table has that code: no code of the table is lost, none is made up. *)
Theorem countries_codes_of_table
    (localeCompare : string -> string -> Z) (metadata : list MetadataItem)
    (code : string) :
  (exists name, In (code, name) (countries localeCompare metadata)) <->
  (exists item, In item metadata /\ country_code item = code).
Proof.
  split.
  - intros [name Hin].
    assert (Hk : In code (map fst (countries localeCompare metadata))).
    { change code with (fst (code, name)). apply in_map, Hin. }
    apply countries_keys_In, in_map_iff in Hk as [item [Hcode Hitem]].
    exists item. split; assumption.
  - intros [item [Hitem Hcode]].
    assert (Hk : In code (map fst (countries localeCompare metadata))).
    { apply countries_keys_In, in_map_iff. exists item. split; assumption. }
    apply in_map_iff in Hk as [[code' name] [Hfst Hin]]. simpl in Hfst. subst code'.
    exists name. exact Hin.
Qed.

(** X2. The list has one entry for each distinct code of the table. *)
Theorem countries_length
    (localeCompare : string -> string -> Z) (metadata : list MetadataItem) :
  List.length (countries localeCompare metadata) =
  List.length (nodup string_dec (map country_code metadata)).
Proof.
  rewrite <- (length_map fst (countries localeCompare metadata)).
  apply Permutation_length, NoDup_Permutation.
  - unfold countries, entries. eapply Permutation_NoDup.
    + apply Permutation_map, sort_perm.
    + apply new_Map_NoDup.
  - apply NoDup_nodup.
  - intros code. rewrite countries_keys_In, nodup_In. reflexivity.
Qed.

(** X3. The banner is absent exactly when no code is selected, that is
    for [null] and for the empty string. For a selected code that is not
    empty the banner is there, and it carries no name exactly when no
    record of the table has that code. *)
Theorem selected_banner_unknown_code
    (localeCompare : string -> string -> Z) (metadata : list MetadataItem)
    (selectedCountryCode : option string) :
  (selected_banner localeCompare metadata selectedCountryCode = None <->
   selectedCountryCode = None \/ selectedCountryCode = Some "") /\
  (forall code,
     selectedCountryCode = Some code -> code <> "" ->
     (selected_banner localeCompare metadata selectedCountryCode = Some None <->
      ~ In code (map country_code metadata))).
Proof.
  split.
  - destruct selectedCountryCode as [code|]; simpl.
    + unfold truthy. destruct (String.eqb_spec code "") as [->|Hne]; simpl.
      * split; auto.
      * split; [discriminate | intros [H|H]; congruence].
    + split; auto.
  - intros code -> Hne. simpl. rewrite (truthy_nonempty code Hne).
    rewrite find_name_get.
    assert (Hkey :
      map_get code
        (new_Map (map (fun item => (country_code item, country item)) metadata))
      = None <-> ~ In code (map country_code metadata)).
    { rewrite map_get_None, new_Map_keys_In, map_map. simpl. reflexivity. }
    rewrite <- Hkey. split; congruence.
Qed.

(** X4. For a selected code that is not empty and occurs in the table, the
    banner shows the name of the last record with that code. *)
Theorem selected_banner_is_last
    (localeCompare : string -> string -> Z)
    (metadata earlier later : list MetadataItem) (item : MetadataItem) :
  metadata = (earlier ++ item :: later)%list ->
  (forall other, In other later -> country_code other <> country_code item) ->
  country_code item <> "" ->
  selected_banner localeCompare metadata (Some (country_code item)) =
  Some (Some (country item)).
Proof.
  intros -> Hlast Hne. simpl. rewrite (truthy_nonempty _ Hne).
  rewrite find_name_get.
  unfold new_Map. rewrite map_app, fold_left_app. simpl.
  rewrite map_get_fold_other.
  - rewrite map_get_set, String.eqb_refl. reflexivity.
  - intros e He. apply in_map_iff in He as [other [<- Hin]]. simpl.
    apply Hlast, Hin.
Qed.

Lemma selected_banner_is_last_example :
  selected_banner codePointCompare example_metadata (Some "CZ") =
  Some (Some "Czechia").
Proof.
  apply (selected_banner_is_last codePointCompare example_metadata
           [ {| country := "Sweden"; country_code := "SE" |};
             {| country := "Czech Republic"; country_code := "CZ" |};
             {| country := "Austria"; country_code := "AT" |} ]
           [ {| country := "Sweden"; country_code := "SE" |} ]
           {| country := "Czechia"; country_code := "CZ" |}).
  - reflexivity.
  - simpl. intros other [<-|[]]. simpl. discriminate.
  - discriminate.
Defined.

(** A record whose code is the empty string is listed, and selecting it
    shows no banner. *)
Example empty_code_has_no_banner :
  let table := [ {| country := "Nowhere"; country_code := "" |} ] in
  countries codePointCompare table = [("", "Nowhere")] /\
  selected_banner codePointCompare table (Some "") = None.
Proof. split; reflexivity. Qed.

Lemma map_set_fresh k v m :
  ~ In k (map fst m) -> map_set k v m = (m ++ [(k, v)])%list.
Proof.
  induction m as [|[k' v'] m IH]; simpl; intros Hout; [reflexivity|].
  destruct (String.eqb_spec k' k) as [->|Hne].
  - exfalso. apply Hout. left. reflexivity.
  - rewrite IH; [reflexivity|]. intros Hin. apply Hout. right. exact Hin.
Qed.

Lemma fold_map_set_distinct es m :
  NoDup (map fst (m ++ es)) ->
  fold_left (fun m e => map_set (fst e) (snd e) m) es m = (m ++ es)%list.
Proof.
  revert m. induction es as [|[k v] es IH]; intros m Hnd; simpl.
  - symmetry. apply app_nil_r.
  - rewrite map_app in Hnd. simpl in Hnd.
    pose proof (NoDup_remove_2 _ _ _ Hnd) as Hout.
    rewrite map_set_fresh.
    + rewrite IH; [rewrite <- app_assoc; reflexivity|].
      rewrite <- app_assoc, map_app. simpl. exact Hnd.
    + intros Hin. apply Hout. apply in_or_app. left. exact Hin.
Qed.

Lemma sort_sorted {A} (cmp : A -> A -> Z) l :
  Sorted (in_order cmp) l -> sort cmp l = l.
Proof.
  induction l as [|x l IH]; simpl; intros Hs; [reflexivity|].
  inversion Hs as [|? ? Hs' Hhd]; subst.
  rewrite (IH Hs'). destruct l as [|y l]; simpl; [reflexivity|].
  inversion Hhd as [|? ? Hxy]; subst. unfold in_order in Hxy.
  destruct (Z.leb_spec (cmp x y) 0); [reflexivity | lia].
Qed.

(** X5. A table that has each code once and whose names are already in the
    order of [localeCompare] is shown as it is, record by record. *)
Theorem countries_of_sorted_table
    (localeCompare : string -> string -> Z) (metadata : list MetadataItem) :
  NoDup (map country_code metadata) ->
  Sorted (fun a b => (localeCompare (country a) (country b) <= 0)%Z) metadata ->
  countries localeCompare metadata =
  map (fun item => (country_code item, country item)) metadata.
Proof.
  intros Hnd Hsorted. unfold countries, entries, new_Map.
  rewrite (fold_map_set_distinct _ []) by (simpl; rewrite map_map; exact Hnd).
  simpl. apply sort_sorted.
  induction Hsorted as [|item l Hl IH Hhd]; simpl; constructor.
  - apply IH. inversion Hnd; assumption.
  - destruct Hhd as [|next l' Hle]; simpl; constructor. exact Hle.
Qed.

Lemma countries_of_sorted_table_example :
  countries codePointCompare sorted_metadata =
  map (fun item => (country_code item, country item)) sorted_metadata.
Proof.
  apply (countries_of_sorted_table codePointCompare sorted_metadata).
  - repeat constructor; simpl; intuition discriminate.
  - repeat constructor; simpl; discriminate.
Defined.

Lemma stands_before_cons {A} (x a b : A) l :
  stands_before a b l -> stands_before a b (x :: l).
Proof.
  intros [l1 [l2 [-> Hin]]]. exists (x :: l1), l2. split; [reflexivity | exact Hin].
Qed.

Lemma sort_insert_In {A} (cmp : A -> A -> Z) x b l :
  In b l -> In b (sort_insert cmp x l).
Proof.
  intros Hin. apply (Permutation_in b (sort_insert_perm cmp x l)).
  right. exact Hin.
Qed.

Lemma sort_insert_keeps_order {A} (cmp : A -> A -> Z) x a b l :
  stands_before a b l -> stands_before a b (sort_insert cmp x l).
Proof.
  induction l as [|y l IH]; intros Hbefore; simpl.
  - destruct Hbefore as [[|? ?] [l2 [Heq _]]]; discriminate.
  - destruct (cmp x y <=? 0)%Z; [apply stands_before_cons, Hbefore|].
    destruct Hbefore as [[|z l1] [l2 [Heq Hin]]]; simpl in Heq;
      injection Heq as <- ->.
    + exists [], (sort_insert cmp x l2). split; [reflexivity|].
      apply sort_insert_In, Hin.
    + apply stands_before_cons, IH. exists l1, l2. split; [reflexivity | exact Hin].
Qed.

Lemma sort_insert_in_front {A} (cmp : A -> A -> Z) a b l :
  (cmp a b <= 0)%Z -> In b l -> stands_before a b (sort_insert cmp a l).
Proof.
  intros Hle. induction l as [|y l IH]; intros Hin; simpl; [contradiction|].
  destruct (Z.leb_spec (cmp a y) 0) as [_|Hgt].
  - exists [], (y :: l). split; [reflexivity | exact Hin].
  - apply stands_before_cons, IH. destruct Hin as [->|Hin]; [lia | exact Hin].
Qed.

(** The sort is stable: two elements that are in order keep their places
    relative to each other. *)
Lemma sort_stable {A} (cmp : A -> A -> Z) a b l :
  (cmp a b <= 0)%Z -> stands_before a b l -> stands_before a b (sort cmp l).
Proof.
  intros Hle. induction l as [|x l IH]; intros Hbefore; simpl.
  - destruct Hbefore as [[|? ?] [l2 [Heq _]]]; discriminate.
  - destruct Hbefore as [[|z l1] [l2 [Heq Hin]]]; simpl in Heq;
      injection Heq as <- ->.
    + apply sort_insert_in_front; [exact Hle|].
      apply (Permutation_in b (sort_perm cmp l2)), Hin.
    + apply sort_insert_keeps_order, IH.
      exists l1, l2. split; [reflexivity | exact Hin].
Qed.

(** X18. In a table that has each code once, a record keeps its place
    before every later record whose name does not compare less than its
    own: records with names that compare equal are listed in the order of
    the table. *)
Theorem countries_keep_table_order
    (localeCompare : string -> string -> Z)
    (metadata before between after : list MetadataItem)
    (first second : MetadataItem) :
  NoDup (map country_code metadata) ->
  metadata = (before ++ first :: between ++ second :: after)%list ->
  (localeCompare (country first) (country second) <= 0)%Z ->
  stands_before (entry_of first) (entry_of second)
                (countries localeCompare metadata).
Proof.
  intros Hnd -> Hle. unfold countries, entries, new_Map.
  rewrite (fold_map_set_distinct _ []) by (simpl; rewrite map_map; exact Hnd).
  simpl. apply sort_stable; [exact Hle|].
  exists (map entry_of before), (map entry_of (between ++ second :: after)).
  split.
  - rewrite map_app. reflexivity.
  - apply in_map, in_or_app. right. left. reflexivity.
Qed.

Lemma countries_keep_table_order_example :
  stands_before ("GE", "Georgia") ("US-GA", "georgia")
                (countries lengthCompare same_name_metadata).
Proof.
  apply (countries_keep_table_order lengthCompare same_name_metadata
           [ {| country := "Zambia"; country_code := "ZM" |} ] [] []
           {| country := "Georgia"; country_code := "GE" |}
           {| country := "georgia"; country_code := "US-GA" |}).
  - repeat constructor; simpl; intuition discriminate.
  - reflexivity.
  - unfold lengthCompare. simpl. lia.
Defined.

(** *** More on the change handler *)

Lemma count_onNext_app cs cs' :
  count_onNext (cs ++ cs') = count_onNext cs + count_onNext cs'.
Proof. unfold count_onNext. rewrite filter_app, length_app. reflexivity. Qed.

Lemma count_onNext_callbacks (tms : list (nat * Callback)) :
  count_onNext (map (fun tm => run_callback (snd tm)) tms) = List.length tms.
Proof.
  induction tms as [|[due []] tms IH]; [reflexivity|].
  unfold count_onNext in *. simpl. rewrite IH. reflexivity.
Qed.

Lemma filter_split_length {A} (f : A -> bool) (l : list A) :
  List.length (filter f l) + List.length (filter (fun x => negb (f x)) l) =
  List.length l.
Proof.
  induction l as [|x l IH]; simpl; [reflexivity|].
  destruct (f x); simpl; lia.
Qed.

Lemma selected_codes_app cs cs' :
  selected_codes (cs ++ cs') = (selected_codes cs ++ selected_codes cs')%list.
Proof. apply flat_map_app. Qed.

Lemma selected_codes_callbacks (tms : list (nat * Callback)) :
  selected_codes (map (fun tm => run_callback (snd tm)) tms) = [].
Proof. induction tms as [|[due []] tms IH]; [reflexivity | exact IH]. Qed.

(** Across any actions of the user: every [onNext] made or still to come
    stands for one selection of a value that is not empty, every timer is
    due within 100 milliseconds, and every selection was passed on. *)
Lemma actions_accounting actions l :
  Forall (fun tm => fst tm <= now l + 100) (timers l) ->
  let l' := fold_left act actions l in
  count_onNext (calls l') + List.length (timers l') =
    count_onNext (calls l) + List.length (timers l) +
    List.length (filter is_nonempty_select actions) /\
  Forall (fun tm => fst tm <= now l' + 100) (timers l') /\
  selected_codes (calls l') =
    (selected_codes (calls l) ++ selected_values actions)%list.
Proof.
  revert l. induction actions as [|a actions IH]; intros l Hdue; simpl.
  - repeat split; [lia | exact Hdue | symmetry; apply app_nil_r].
  - specialize (IH (act l a)). destruct a as [value|d]; simpl in *.
    + unfold change, handleChange in *. destruct (truthy value); simpl in *.
      * destruct IH as [Hcount [Hdue' Hcodes]].
        { apply Forall_app. split; [exact Hdue | repeat constructor]. }
        repeat split; [|exact Hdue'|].
        -- rewrite Hcount, count_onNext_app, length_app. simpl.
           unfold count_onNext at 2. simpl. lia.
        -- rewrite Hcodes, selected_codes_app, <- app_assoc. reflexivity.
      * destruct IH as [Hcount [Hdue' Hcodes]]; [exact Hdue|].
        repeat split; [|exact Hdue'|].
        -- rewrite Hcount, count_onNext_app.
           unfold count_onNext at 2. simpl. lia.
        -- rewrite Hcodes, selected_codes_app, <- app_assoc. reflexivity.
    + unfold elapse in *. simpl in *.
      destruct IH as [Hcount [Hdue' Hcodes]].
      { apply Forall_forall. intros tm Htm. apply filter_In in Htm as [Htm _].
        rewrite Forall_forall in Hdue. specialize (Hdue tm Htm). lia. }
      repeat split; [|exact Hdue'|].
      * rewrite Hcount, count_onNext_app, count_onNext_callbacks.
        pose proof (filter_split_length
                      (fun tm : nat * Callback => (fst tm <=? now l + d)%nat)
                      (timers l)).
        lia.
      * rewrite Hcodes, selected_codes_app, selected_codes_callbacks, app_nil_r.
        reflexivity.
Qed.

(** X6. Whatever the user selects and however long they wait in between,
    starting with no timer pending: 100 milliseconds after the last action
    [onNext] has been called once for each selection of a value that is not
    empty, no timer is left, and [onSelectCountryCode] has received every
    selected value, the empty ones too, in the order of the selections. A
    timer is never cancelled: two quick selections advance twice. *)
Theorem every_selection_advances (actions : list UserAction) (l : Loop) :
  timers l = [] ->
  let l' := elapse 100 (fold_left act actions l) in
  count_onNext (calls l') =
    count_onNext (calls l) + List.length (filter is_nonempty_select actions) /\
  timers l' = [] /\
  selected_codes (calls l') =
    (selected_codes (calls l) ++ selected_values actions)%list.
Proof.
  intros Hidle.
  destruct (actions_accounting actions l) as [Hcount [Hdue Hcodes]].
  { rewrite Hidle. constructor. }
  cbv zeta in *. rewrite Hidle in Hcount. simpl in Hcount.
  set (l1 := fold_left act actions l) in *.
  assert (Hall : filter (fun tm : nat * Callback => (fst tm <=? now l1 + 100)%nat)
                        (timers l1) = timers l1).
  { apply forallb_filter_id, forallb_forall. intros tm Htm.
    rewrite Forall_forall in Hdue. apply Nat.leb_le, Hdue, Htm. }
  assert (Hnone : filter (fun tm : nat * Callback =>
                            negb (fst tm <=? now l1 + 100)%nat) (timers l1) = []).
  { pose proof (filter_split_length
                  (fun tm : nat * Callback => (fst tm <=? now l1 + 100)%nat)
                  (timers l1)) as Hsplit.
    rewrite Hall in Hsplit. apply length_zero_iff_nil. lia. }
  unfold elapse. simpl. rewrite Hall, Hnone. repeat split.
  - rewrite count_onNext_app, count_onNext_callbacks. lia.
  - rewrite selected_codes_app, selected_codes_callbacks, app_nil_r.
    exact Hcodes.
Qed.

Lemma every_selection_advances_example :
  let l' := elapse 100 (fold_left act [select "SE"; wait 30; select ""; select "AT"]
                                  idle_loop) in
  count_onNext (calls l') = 0 + 2 /\
  timers l' = [] /\
  selected_codes (calls l') = ([] ++ ["SE"; ""; "AT"])%list.
Proof.
  apply (every_selection_advances [select "SE"; wait 30; select ""; select "AT"]
                                  idle_loop).
  reflexivity.
Defined.

End CountrySelectionFacts.

(* ================================================================= *)
(** ** Properties of the document-back capture screen *)

Module DocumentBackCaptureFacts.
Import DocumentBackCapture.

(** *** The quality check *)

Ltac case_message m :=
  destruct m as [m|]; simpl;
  [ destruct (String.eqb_spec m "CLEAR IMAGE"); simpl | ].

Lemma or_else_verbatim m d : m <> "" -> or_else (Some m) d = m.
Proof.
  intros Hne. unfold or_else. rewrite CountrySelectionFacts.truthy_nonempty by exact Hne.
  reflexivity.
Qed.

(** C1. When the quality check answers with a message that is exactly
    CLEAR IMAGE and the OCR submission that follows resolves, the handler
    awaits the two calls, then calls [stopCamera] and then [onNext]:
    [onNext] once, [stopCamera] before it. *)
Theorem clear_image_advances_once
    (props : Props) (randomId : string) (image : CapturedImage)
    (response : Response.t) (ocrResponse : OcrResponse)
    (capture : Settled (option CaptureResult)) (s : Hooks) :
  Response.message response = Some "CLEAR IMAGE" ->
  let r := run (settle capture (Resolved response) (Resolved ocrResponse))
               (handleCheckQuality props randomId (Some image)) s in
  trace r =
    [ Awaited (processDocument (blob image) "document-back" (verificationId props));
      Awaited (processOCRDocument (blob image) ("ML_" ++ randomId));
      Called stopCamera;
      Called onNext ] /\
  advances_once (trace r).
Proof.
  intros Hclear. destruct response as [m]. simpl in Hclear. subst m.
  simpl. split; [reflexivity|]. split; reflexivity.
Qed.

Lemma clear_image_advances_once_example :
  let r := run (settle (Resolved None) (Resolved clear_image) (Resolved "{}"))
               (handleCheckQuality example_props "4f9c2d" (Some example_image))
               initial_hooks in
  trace r =
    [ Awaited (processDocument (blob example_image) "document-back"
                               (verificationId example_props));
      Awaited (processOCRDocument (blob example_image) ("ML_" ++ "4f9c2d"));
      Called stopCamera;
      Called onNext ] /\
  advances_once (trace r).
Proof.
  apply (clear_image_advances_once example_props "4f9c2d" example_image
           clear_image "{}" (Resolved None) initial_hooks).
  reflexivity.
Defined.

(** C1, as stated, fails: the quality check answers CLEAR IMAGE, the OCR
    call is rejected, and [onNext] is not called. *)
Lemma clear_image_without_advance :
  ~ advances_once
      (trace (run (settle (Resolved None) (Resolved clear_image)
                          (Rejected timeout_failure))
                  (handleCheckQuality example_props "4f9c2d" (Some example_image))
                  initial_hooks)).
Proof. intros [Hcount _]. discriminate Hcount. Qed.

(** C2. The OCR call is made only when the quality check has resolved with
    the message CLEAR IMAGE, and after it. What the OCR call resolves to
    is not looked at: whenever it resolves the wizard advances and no
    error is set. When it is rejected neither [stopCamera] nor [onNext] is
    called, and the rejection is shown as a network error. *)
Theorem ocr_follows_acceptance
    (props : Props) (randomId : string) (image : CapturedImage)
    (document : Settled Response.t) (ocr : Settled OcrResponse)
    (capture : Settled (option CaptureResult)) (s : Hooks) :
  let r := run (settle capture document ocr)
               (handleCheckQuality props randomId (Some image)) s in
  (count is_processOCRDocument (trace r) <> 0 ->
   exists response, document = Resolved response /\
                    Response.message response = Some "CLEAR IMAGE") /\
  always_before is_processDocument is_processOCRDocument (trace r) = true /\
  (forall response,
     document = Resolved response ->
     Response.message response = Some "CLEAR IMAGE" ->
     match ocr with
     | Resolved _ =>
         advances_once (trace r) /\
         captureError (state r) = None /\ uploadError (state r) = None
     | Rejected reason =>
         count is_onNext (trace r) = 0 /\
         count is_stopCamera (trace r) = 0 /\
         captureError (state r) =
           Some {| type := network; message := errorMessage_of reason;
                   tips := network_tips |}
     end).
Proof.
  simpl. split; [|split].
  - destruct document as [[m]|reason]; simpl.
    + case_message m.
      * intros _. exists {| Response.message := Some m |}. subst m. split; reflexivity.
      * destruct (onError_given props); simpl; intros H; contradiction.
      * destruct (onError_given props); simpl; intros H; contradiction.
    + destruct (onError_given props); simpl; intros H; contradiction.
  - destruct document as [[m]|reason]; simpl; reflexivity.
  - intros response -> Hclear. destruct response as [m]. simpl in Hclear. subst m.
    simpl. destruct ocr as [ocrResponse|reason]; simpl.
    + repeat split; reflexivity.
    + destruct (onError_given props); simpl; repeat split; reflexivity.
Qed.

(** C2, as stated, fails: after CLEAR IMAGE a rejected OCR call stops the
    wizard and is shown to the user. *)
Lemma ocr_rejection_is_shown :
  let r := run (settle (Resolved None) (Resolved clear_image) (Rejected bare_failure))
               (handleCheckQuality example_props "4f9c2d" (Some example_image))
               initial_hooks in
  ~ advances_once (trace r) /\
  captureError (state r) =
    Some {| type := network; message := "Network error. Please try again.";
            tips := network_tips |} /\
  trace r =
    [ Awaited (processDocument (blob example_image) "document-back" "verif-001");
      Awaited (processOCRDocument (blob example_image) "ML_4f9c2d");
      Called (onError "Network error. Please try again.") ].
Proof.
  simpl. split; [|split; reflexivity].
  intros [Hcount _]. discriminate Hcount.
Qed.


(** The comparison is on the exact text: another case is a rejection. *)
Example lowercase_is_rejected :
  let r := run (settle (Resolved None)
                       (Resolved {| Response.message := Some "Clear Image" |})
                       (Resolved "{}"))
               (handleCheckQuality example_props "4f9c2d" (Some example_image))
               initial_hooks in
  isClearImage (state r) = false /\
  captureError (state r) =
    Some {| type := validation; message := "Clear Image"; tips := validation_tips |} /\
  trace r =
    [ Awaited (processDocument (blob example_image) "document-back" "verif-001");
      Called (onError "Clear Image") ].
Proof. repeat split. Qed.

(** C4. A response whose message is not CLEAR IMAGE gives a validation
    error: it carries the message as it is when there is one, and the
    default text when the message is empty or absent. A rejected upload,
    and a rejected OCR submission after CLEAR IMAGE, give a network error
    with the connectivity tips: it carries the
    generic network text when the thrown value has no message on either
    path the handler reads, else the first message found. *)
Theorem errors_are_categorized
    (props : Props) (randomId : string) (image : CapturedImage)
    (ocr : Settled OcrResponse) (capture : Settled (option CaptureResult))
    (s : Hooks) :
  (forall text,
     text <> "CLEAR IMAGE" -> text <> "" ->
     captureError
       (state (run (settle capture (Resolved {| Response.message := Some text |}) ocr)
                   (handleCheckQuality props randomId (Some image)) s)) =
     Some {| type := validation; message := text; tips := validation_tips |}) /\
  (forall absent,
     absent = None \/ absent = Some "" ->
     captureError
       (state (run (settle capture (Resolved {| Response.message := absent |}) ocr)
                   (handleCheckQuality props randomId (Some image)) s)) =
     Some {| type := validation;
             message := "Document is not clear. Please retake.";
             tips := validation_tips |}) /\
  (forall thrown,
     let r := run (settle capture (Rejected thrown) ocr)
                  (handleCheckQuality props randomId (Some image)) s in
     captureError (state r) =
       Some {| type := network; message := errorMessage_of thrown;
               tips := ["Check your internet connection."; "Try again later."] |} /\
     count is_onNext (trace r) = 0) /\
  (forall response thrown,
     Response.message response = Some "CLEAR IMAGE" ->
     captureError
       (state (run (settle capture (Resolved response) (Rejected thrown))
                   (handleCheckQuality props randomId (Some image)) s)) =
     Some {| type := network; message := errorMessage_of thrown;
             tips := ["Check your internet connection."; "Try again later."] |}) /\
  (forall thrown,
     (Thrown.response_data_message thrown = None \/
      Thrown.response_data_message thrown = Some "") ->
     (Thrown.message thrown = None \/ Thrown.message thrown = Some "") ->
     errorMessage_of thrown = "Network error. Please try again.") /\
  (forall thrown text,
     (Thrown.response_data_message thrown = None \/
      Thrown.response_data_message thrown = Some "") ->
     Thrown.message thrown = Some text -> text <> "" ->
     errorMessage_of thrown = text).
Proof.
  split; [|split; [|split; [|split; [|split]]]].
  - intros text Hclear Hne. simpl.
    destruct (String.eqb_spec text "CLEAR IMAGE"); [contradiction|].
    unfold or_else, truthy.
    destruct (String.eqb_spec text ""); [contradiction|].
    destruct (onError_given props); reflexivity.
  - intros absent [->| ->]; simpl; destruct (onError_given props); reflexivity.
  - intros thrown. simpl. destruct (onError_given props); split; reflexivity.
  - intros [m] thrown Hclear. simpl in Hclear. subst m. simpl.
    destruct (onError_given props); reflexivity.
  - intros [data own] Hdata Hmessage. unfold errorMessage_of. simpl in *.
    destruct Hdata as [->| ->], Hmessage as [->| ->]; reflexivity.
  - intros [data own] text Hdata Hmessage Hne. unfold errorMessage_of.
    simpl in *. subst own. rewrite (or_else_verbatim text) by exact Hne.
    destruct Hdata as [->| ->]; reflexivity.
Qed.

(** The three scenarios of the upload: a blurry image, and a failure that
    carries no message. *)
Example blurry_image_scenario :
  captureError
    (state (run (settle (Resolved None) (Resolved blurry_image) (Resolved "{}"))
                (handleCheckQuality example_props "4f9c2d" (Some example_image))
                initial_hooks)) =
  Some {| type := validation; message := "Blurry image"; tips := validation_tips |}.
Proof. reflexivity. Qed.

Example bare_failure_scenario :
  captureError
    (state (run (settle (Resolved None) (Rejected bare_failure) (Resolved "{}"))
                (handleCheckQuality example_props "4f9c2d" (Some example_image))
                initial_hooks)) =
  Some {| type := network; message := "Network error. Please try again.";
          tips := network_tips |}.
Proof. reflexivity. Qed.

(** *** The retake *)

(** C5. The retake, from the error page or called as it is, leaves no
    upload error, no capture error and no captured image; it revokes the
    object URL of the image it holds, and only then starts the camera; and
    after it the capture button is disabled as long as [isStreaming] is
    false. *)
Theorem retake_clears_then_restarts
    (env : Environment) (held : option CapturedImage) (s : Hooks) :
  let r := run env (handleRetake held) s in
  let r' := run env (onRetry held) s in
  (uploadError (state r) = None /\ captureError (state r) = None /\
   capturedImage (state r) = None /\ isClearImage (state r) = false) /\
  state r' = state r /\
  trace r' = trace r /\
  trace r =
    (match held with
     | Some image => [Called (revokeObjectURL (url image))]
     | None => []
     end ++ [Called (startCamera "environment")])%list /\
  completion r = Resolved tt /\
  capture_disabled false (state r) = true.
Proof.
  destruct held as [image|]; simpl; repeat split; reflexivity.
Qed.

(** C6. The retake awaits nothing: it sends no quality check and no OCR
    submission. A capture sends at most one OCR submission, and sends it
    only when the camera gave an image and the quality check of that image
    resolved with the message CLEAR IMAGE. *)
Theorem retake_never_submits
    (env : Environment) (props : Props) (date : Z) (randomId : string)
    (held : option CapturedImage) (s : Hooks) :
  count is_processDocument (trace (run env (handleRetake held) s)) = 0 /\
  count is_processOCRDocument (trace (run env (handleRetake held) s)) = 0 /\
  count is_processDocument (trace (run env (onRetry held) s)) = 0 /\
  count is_processOCRDocument (trace (run env (onRetry held) s)) = 0 /\
  (let r := run env (handleCapture props date randomId) s in
   count is_processOCRDocument (trace r) <= 1 /\
   (count is_processOCRDocument (trace r) <> 0 ->
    exists result response,
      env captureImage = Resolved (Some result) /\
      env (processDocument (result_blob result) "document-back"
                           (verificationId props)) = Resolved response /\
      Response.message response = Some "CLEAR IMAGE" /\
      In (Awaited (processOCRDocument (result_blob result) ("ML_" ++ randomId)))
         (trace r))).
Proof.
  split; [|split; [|split; [|split]]];
    try (destruct held; reflexivity).
  unfold count. simpl.
  destruct (env captureImage) as [[result|]|reason] eqn:Hcapture; simpl;
    try (split; [lia | intros H; contradiction]).
  destruct (env (processDocument (result_blob result) "document-back"
                                 (verificationId props)))
    as [[m]|reason] eqn:Hdocument; simpl.
  - case_message m.
    + subst m.
      match goal with
      | |- context [env (processOCRDocument ?b ?u)] =>
          destruct (env (processOCRDocument b u))
      end; simpl; [|destruct (onError_given props); simpl].
      all: split; [lia|]; intros _; exists result; eexists;
        split; [reflexivity|]; split; [exact Hdocument|];
        split; [reflexivity|]; auto 10.
    + destruct (onError_given props); simpl; split; try lia; intros H; contradiction.
    + destruct (onError_given props); simpl; split; try lia; intros H; contradiction.
  - destruct (onError_given props); simpl; split; try lia; intros H; contradiction.
Qed.

(** *** One capture at a time *)

(** Running a script to its end is running it to its first [await] and
    then, with what the environment settles the call to, the rest. *)
Lemma run_advance {A} (env : Environment) (p : Script A) (s : Hooks) :
  run env p s =
  let seg := advance p s in
  match seg_outcome seg with
  | Finished a =>
      {| state := seg_state seg; trace := seg_trace seg; completion := Resolved a |}
  | Failed e =>
      {| state := seg_state seg; trace := seg_trace seg; completion := Rejected e |}
  | Suspended c k =>
      let r := run env (k (env c)) (seg_state seg) in
      {| state := state r; trace := (seg_trace seg ++ trace r)%list;
         completion := completion r |}
  end.
Proof.
  revert s. induction p as [a|e|f k IH|c k IH|c k IH]; intros s; simpl;
    try reflexivity.
  - apply IH.
  - rewrite IH. cbv zeta. destruct (seg_outcome (advance k s)); reflexivity.
Qed.

Lemma advance_capturing {A} (p : Script A) (s : Hooks) :
  capturing_while_pending p s ->
  match seg_outcome (advance p s) with
  | Suspended c k =>
      isCapturing (seg_state (advance p s)) = true /\
      forall r s', isCapturing s' = true -> capturing_while_pending (k r) s'
  | _ => True
  end.
Proof.
  revert s. induction p as [a|e|f k IH|c k IH|c k IH]; intros s; simpl;
    try exact (fun _ => I).
  - apply IH.
  - apply IH.
  - intros H. exact H.
Qed.

Lemma handleCheckQuality_capturing props randomId image s :
  isCapturing s = true ->
  capturing_while_pending
    (handleCheckQuality props randomId (Some image) ;; setIsCapturing false) s.
Proof.
  intros Hs. simpl. split; [exact Hs|].
  intros [[m]|reason] s1 Hs1; simpl.
  - case_message m.
    + split; [exact Hs1|]. intros [ocrResponse|reason] s2 Hs2; simpl.
      * exact I.
      * destruct (onError_given props); exact I.
    + destruct (onError_given props); exact I.
    + destruct (onError_given props); exact I.
  - destruct (onError_given props); exact I.
Qed.

Lemma handleCapture_capturing props date randomId s :
  capturing_while_pending (handleCapture props date randomId) s.
Proof.
  unfold handleCapture. simpl. split; [reflexivity|].
  intros [[result|]|reason] s1 Hs1.
  - apply (handleCheckQuality_capturing props randomId
             {| blob := result_blob result; url := result_url result;
                timestamp := date |}).
    exact Hs1.
  - exact I.
  - exact I.
Qed.

Lemma onRetry_finishes held s :
  seg_outcome (advance (onRetry held) s) = Finished tt /\
  isCapturing (seg_state (advance (onRetry held) s)) = isCapturing s.
Proof. destruct held; split; reflexivity. Qed.

Lemma capture_enabled_not_capturing b s :
  capture_disabled b s = false -> isCapturing s = false.
Proof.
  unfold capture_disabled. destruct b, (isCapturing s); simpl; congruence.
Qed.

Lemma step_one_cycle props sc sc' :
  one_cycle sc -> step props sc sc' -> one_cycle sc'.
Proof.
  intros Hinv Hstep.
  destruct Hstep as [sc b | sc | sc date randomId Herr Himg Hen | sc Herr
                    | sc earlier t later settled Hpending];
    unfold one_cycle in *; cbv zeta;
    cbn [hooks rendered isStreaming pending history].
  - exact Hinv.
  - destruct Hinv as [Hnone | [t [Hone [Hh [Hr Hk]]]]]; [left; exact Hnone|].
    right. exists t. repeat split; assumption.
  - apply capture_enabled_not_capturing in Hen.
    destruct Hinv as [Hnone | [t [Hone [Hh [Hr Hk]]]]]; [|congruence].
    rewrite Hnone. cbn [app].
    pose proof (advance_capturing _ (hooks sc)
                  (handleCapture_capturing props date randomId (hooks sc))) as Hadv.
    destruct (seg_outcome (advance (handleCapture props date randomId) (hooks sc)))
      as [a|e|c k]; simpl; [left; reflexivity | left; reflexivity |].
    right. destruct Hadv as [Hcap Hk].
    exists {| awaiting := c; continuation := k |}. repeat split; assumption.
  - destruct (onRetry_finishes (capturedImage (rendered sc)) (hooks sc)) as [Hfin Hsame].
    rewrite Hfin, Hsame. simpl. rewrite app_nil_r.
    destruct Hinv as [Hnone | [t [Hone [Hh [Hr Hk]]]]]; [left; exact Hnone|].
    right. exists t. repeat split; assumption.
  - destruct Hinv as [Hnone | [t0 [Hone [Hh [Hr Hk]]]]].
    + rewrite Hnone in Hpending. destruct earlier; discriminate.
    + rewrite Hone in Hpending.
      destruct earlier as [|t1 earlier];
        [|destruct earlier; discriminate].
      simpl in Hpending. injection Hpending as <- <-.
      pose proof (advance_capturing _ (hooks sc) (Hk settled (hooks sc) Hh)) as Hadv.
      destruct (seg_outcome (advance (continuation t0 settled) (hooks sc)))
        as [a|e|c k]; simpl; [left; reflexivity | left; reflexivity |].
      right. destruct Hadv as [Hcap Hk'].
      exists {| awaiting := c; continuation := k |}. repeat split; assumption.
Qed.

Lemma reachable_one_cycle props sc : reachable props sc -> one_cycle sc.
Proof.
  induction 1 as [|sc sc' _ IH Hstep].
  - left. reflexivity.
  - exact (step_one_cycle props sc sc' IH Hstep).
Qed.

Lemma filter_length_le {A} (f : A -> bool) (l : list A) :
  List.length (filter f l) <= List.length l.
Proof.
  induction l as [|x l IH]; simpl; [lia|].
  destruct (f x); simpl; lia.
Qed.

(** C9. The capture button is disabled exactly when the stream is not
    active, a capture is in progress or an upload is outstanding. On every
    screen that can be reached from the mount, at most one capture handler
    is stopped at an [await], so at most one quality check is in flight;
    and while a handler is stopped the button on the page is disabled, so
    that no click starts a second one. *)
Theorem one_capture_in_flight (props : Props) (sc : Screen) :
  reachable props sc ->
  (forall b s,
     capture_disabled b s = true <->
     b = false \/ isCapturing s = true \/ isUploading s = true) /\
  List.length (pending sc) <= 1 /\
  uploads_in_flight sc <= 1 /\
  (pending sc <> [] ->
   capture_disabled (isStreaming sc) (rendered sc) = true).
Proof.
  intros Hreach. pose proof (reachable_one_cycle props sc Hreach) as Hinv.
  split; [|split; [|split]].
  - intros b s. unfold capture_disabled.
    destruct b, (isCapturing s), (isUploading s); simpl; split; auto;
      intros [H|[H|H]]; discriminate.
  - destruct Hinv as [-> | [t [-> _]]]; simpl; lia.
  - unfold uploads_in_flight.
    pose proof (filter_length_le awaits_processDocument (pending sc)).
    destruct Hinv as [Hnone | [t [Hone _]]];
      [rewrite Hnone in * | rewrite Hone in *]; simpl in *; lia.
  - intros Hbusy. destruct Hinv as [Hnone | [t [Hone [Hh [Hr Hk]]]]]; [contradiction|].
    unfold capture_disabled. rewrite Hr. destruct (isStreaming sc); reflexivity.
Qed.

Lemma capturing_screen_reachable : reachable example_props capturing_screen.
Proof.
  apply (reachable_step example_props streaming_screen).
  - apply (reachable_step example_props mounted).
    + apply reachable_mounted.
    + apply (step_camera example_props mounted true).
  - apply (step_capture example_props streaming_screen 1700000000000%Z "4f9c2d");
      reflexivity.
Qed.

Lemma one_capture_in_flight_example :
  (forall b s,
     capture_disabled b s = true <->
     b = false \/ isCapturing s = true \/ isUploading s = true) /\
  List.length (pending capturing_screen) <= 1 /\
  uploads_in_flight capturing_screen <= 1 /\
  (pending capturing_screen <> [] ->
   capture_disabled (isStreaming capturing_screen) (rendered capturing_screen) = true).
Proof.
  exact (one_capture_in_flight example_props capturing_screen
                               capturing_screen_reachable).
Defined.

(** On that screen a capture is pending, the camera streams, and the
    button is disabled. *)
Example capturing_screen_is_busy :
  List.length (pending capturing_screen) = 1 /\
  isStreaming capturing_screen = true /\
  capture_disabled (isStreaming capturing_screen) (rendered capturing_screen) = true.
Proof. repeat split. Qed.

Lemma settle_first_step props env sc :
  pending sc <> [] -> step props sc (settle_first env sc).
Proof.
  intros Hbusy. unfold settle_first.
  destruct (pending sc) as [|t later] eqn:Hpending; [contradiction|].
  apply (step_settle props sc [] t later (env (awaiting t))). exact Hpending.
Qed.

(** A whole cycle, event by event: click, image captured, quality check
    rejected as blurry. The handler is then done and the error page is up. *)
Example rejected_cycle :
  let env := settle (Resolved (Some example_result)) (Resolved blurry_image)
                    (Resolved "{}") in
  let uploading := settle_first env capturing_screen in
  let rejected := settle_first env uploading in
  step example_props capturing_screen uploading /\
  step example_props uploading rejected /\
  uploads_in_flight uploading = 1 /\
  pending rejected = [] /\
  isCapturing (hooks rejected) = false /\
  isUploading (hooks rejected) = false /\
  captureError (hooks rejected) =
    Some {| type := validation; message := "Blurry image";
            tips := validation_tips |}.
Proof.
  cbv zeta. split; [|split].
  - apply settle_first_step. discriminate.
  - apply settle_first_step. discriminate.
  - repeat split.
Qed.

(** *** The handlers, whatever the environment *)

Ltac settle_cases env props :=
  repeat (simpl;
    match goal with
    | |- context [env ?c] =>
        let v := fresh "v" in
        let reason := fresh "reason" in
        destruct (env c) as [v|reason] eqn:?
    | |- context [strict_eq (Response.message ?r) _] =>
        let m := fresh "m" in
        destruct r as [[m|]]; simpl;
        [destruct (String.eqb_spec m "CLEAR IMAGE")|]
    | |- context [onError_given props] =>
        destruct (onError_given props) eqn:?
    end);
  simpl.

Lemma or_else_nonempty m d : d <> "" -> or_else m d <> "".
Proof.
  intros Hd. destruct m as [t|]; simpl; [|exact Hd].
  unfold truthy. destruct (String.eqb_spec t ""); simpl; assumption.
Qed.

Lemma errorMessage_of_nonempty error : errorMessage_of error <> "".
Proof.
  unfold errorMessage_of. apply or_else_nonempty, or_else_nonempty.
  discriminate.
Qed.

(** X7. The promise of [handleCheckQuality] always resolves: every
    rejection of the two calls is caught. With an image, [isUploading] is
    false at the end; without one nothing is done at all. The captured
    image and [isCapturing] are left as they were. *)
Theorem handleCheckQuality_settles
    (env : Environment) (props : Props) (randomId : string)
    (image : option CapturedImage) (s : Hooks) :
  let r := run env (handleCheckQuality props randomId image) s in
  completion r = Resolved tt /\
  capturedImage (state r) = capturedImage s /\
  isCapturing (state r) = isCapturing s /\
  match image with
  | Some _ => isUploading (state r) = false
  | None => state r = s /\ trace r = []
  end.
Proof.
  destruct image as [image|]; [|repeat split].
  settle_cases env props; repeat split.
Qed.

(** X8. [onError] tells the parent what the screen shows: when the prop is
    given it is called once with the message of the error that was set,
    and not at all when no error was set; when the prop is not given it is
    never called. *)
Theorem onError_mirrors_captureError
    (env : Environment) (props : Props) (randomId : string)
    (image : CapturedImage) (s : Hooks) :
  let r := run env (handleCheckQuality props randomId (Some image)) s in
  onError_messages (trace r) =
  if onError_given props then
    match captureError (state r) with
    | Some error => [message error]
    | None => []
    end
  else [].
Proof.
  cbv zeta. settle_cases env props; reflexivity.
Qed.

(** X9. A quality check ends in one of two ways and never in between:
    the wizard advances, with [stopCamera] and [onNext] called once each
    and no error set; or neither is called and an error is set, whose
    message is not empty and is also the upload error. *)
Theorem advance_or_error
    (env : Environment) (props : Props) (randomId : string)
    (image : CapturedImage) (s : Hooks) :
  let r := run env (handleCheckQuality props randomId (Some image)) s in
  (count is_onNext (trace r) = 1 /\ count is_stopCamera (trace r) = 1 /\
   isClearImage (state r) = true /\
   captureError (state r) = None /\ uploadError (state r) = None) \/
  (count is_onNext (trace r) = 0 /\ count is_stopCamera (trace r) = 0 /\
   exists error,
     captureError (state r) = Some error /\
     uploadError (state r) = Some (message error) /\
     message error <> "").
Proof.
  cbv zeta. settle_cases env props;
    first
      [ left; repeat split; reflexivity
      | right; split; [reflexivity|]; split; [reflexivity|];
        eexists; split; [reflexivity|]; split; [reflexivity|]; simpl;
        first [ apply errorMessage_of_nonempty
              | apply (or_else_nonempty (Some _)); discriminate
              | discriminate ] ].
Qed.

(** X10. When the camera gives no image, the capture uploads nothing and
    calls no callback: it awaits [captureImage] and leaves the state as it
    was, with [isCapturing] false. *)
Theorem capture_without_image
    (document : Settled Response.t) (ocr : Settled OcrResponse)
    (props : Props) (date : Z) (randomId : string) (s : Hooks) :
  let r := run (settle (Resolved None) document ocr)
               (handleCapture props date randomId) s in
  trace r = [Awaited captureImage] /\
  state r = with_isCapturing false s /\
  completion r = Resolved tt.
Proof. repeat split. Qed.

(** X11. When [captureImage] is rejected nothing catches it: the promise
    of [handleCapture] is rejected with the same reason, [isCapturing]
    stays true, and the capture button is disabled whatever the camera
    does. *)
Theorem capture_rejection_is_not_caught
    (reason : Thrown.t) (document : Settled Response.t)
    (ocr : Settled OcrResponse)
    (props : Props) (date : Z) (randomId : string) (s : Hooks) :
  let r := run (settle (Rejected reason) document ocr)
               (handleCapture props date randomId) s in
  completion r = Rejected reason /\
  trace r = [Awaited captureImage] /\
  state r = with_isCapturing true s /\
  forall isStreaming, capture_disabled isStreaming (state r) = true.
Proof.
  repeat split. intros b. unfold capture_disabled. simpl.
  destruct b; reflexivity.
Qed.

(** X12. When the camera gives an image, the screen keeps it with the
    date of the capture and hands it to [onCapture] once, before the
    quality check is sent, whatever the check then answers; the check is
    sent with the blob of that image, the type document-back and the
    verification id of the props. At the end the promise is resolved and
    neither [isCapturing] nor [isUploading] is set. *)
Theorem capture_with_image
    (result : CaptureResult) (document : Settled Response.t)
    (ocr : Settled OcrResponse)
    (props : Props) (date : Z) (randomId : string) (s : Hooks) :
  let r := run (settle (Resolved (Some result)) document ocr)
               (handleCapture props date randomId) s in
  let image := {| blob := result_blob result; url := result_url result;
                  timestamp := date |} in
  captured_images (trace r) = [image] /\
  capturedImage (state r) = Some image /\
  (exists rest,
     trace r =
       Awaited captureImage ::
       Called (onCapture image) ::
       Awaited (processDocument (result_blob result) "document-back"
                                (verificationId props)) :: rest) /\
  count is_processDocument (trace r) = 1 /\
  completion r = Resolved tt /\
  isCapturing (state r) = false /\
  isUploading (state r) = false.
Proof.
  cbv zeta. destruct document as [[m]|reason]; simpl.
  - case_message m.
    + destruct ocr; simpl; [|destruct (onError_given props); simpl];
        repeat split; eexists; reflexivity.
    + destruct (onError_given props); simpl; repeat split; eexists; reflexivity.
    + destruct (onError_given props); simpl; repeat split; eexists; reflexivity.
  - destruct (onError_given props); simpl; repeat split; eexists; reflexivity.
Qed.

(** *** The screen over its whole life *)

Lemma count_snoc f h e :
  count f (h ++ [e]) = count f h + (if f e then 1 else 0).
Proof.
  unfold count. rewrite filter_app, length_app. simpl.
  destruct (f e); reflexivity.
Qed.

Lemma captured_urls_snoc h e :
  captured_urls (h ++ [e]) =
  (captured_urls h ++ match e with
                      | Called (onCapture image) => [url image]
                      | _ => []
                      end)%list.
Proof.
  unfold captured_urls, captured_images. rewrite flat_map_app, map_app. simpl.
  destruct e as [[]|]; reflexivity.
Qed.

Lemma revoked_urls_snoc h e :
  revoked_urls (h ++ [e]) =
  (revoked_urls h ++ match e with
                     | Called (revokeObjectURL objectUrl) => [objectUrl]
                     | _ => []
                     end)%list.
Proof.
  unfold revoked_urls. rewrite flat_map_app. simpl.
  destruct e as [[]|]; reflexivity.
Qed.

Ltac history_simpl :=
  unfold urls_accounted, errors_agree, current_url in *;
  repeat rewrite ?count_snoc, ?captured_urls_snoc, ?revoked_urls_snoc;
  simpl in *; rewrite ?app_nil_r, ?Nat.add_0_r.

Lemma advance_respects {A} (p : Script A) (s : Hooks) (h : list Event) :
  respects p s h ->
  match seg_outcome (advance p s) with
  | Suspended c k =>
      pending_ok c (seg_state (advance p s)) (h ++ seg_trace (advance p s)) /\
      forall r s' h', pending_ok c s' h' -> respects (k r) s' h'
  | _ => idle_ok (seg_state (advance p s)) (h ++ seg_trace (advance p s))
  end.
Proof.
  revert s h. induction p as [a|e|f k IH|c k IH|c k IH]; intros s h; simpl.
  - rewrite app_nil_r. exact (fun H => H).
  - rewrite app_nil_r. exact (fun H => H).
  - apply IH.
  - intros H. specialize (IH s (h ++ [Called c])%list H).
    rewrite <- app_assoc in IH. exact IH.
  - exact (fun H => H).
Qed.


Ltac ok_goal :=
  unfold pending_ok, idle_ok in *; history_simpl;
  repeat match goal with
         | H : _ /\ _ |- _ => destruct H
         end;
  repeat match goal with
         | H : capturedImage ?s = None |- _ => rewrite H in *
         | H : captureError ?s = None |- _ => rewrite H in *
         end;
  simpl in *; rewrite ?app_nil_r in *;
  repeat split;
  try first
    [ assumption
    | reflexivity
    | lia
    | discriminate
    | congruence
    | left; split; [lia | first [left; congruence | right; discriminate]]
    | right; repeat split; first [lia | discriminate | congruence] ].

(** A click on an idle screen that holds no image and shows no error
    starts a capture that goes on well to its end. *)
Lemma handleCapture_respects props date randomId s h :
  idle_ok s h -> captureError s = None -> capturedImage s = None ->
  respects (handleCapture props date randomId) s h.
Proof.
  intros Hidle Herr Himg. unfold handleCapture. simpl. split.
  - destruct Hidle as [Hurls [Hagree [Hup [[Hnext _]|[_ [Hsome _]]]]]];
      [|congruence].
    ok_goal.
  - clear. intros [[result|]|reason] s1 h1 Hp1; simpl.
    + split; [ok_goal|].
      intros [[m]|reason] s2 h2 Hp2; simpl.
      * case_message m.
        -- split; [ok_goal|].
           intros [ocrResponse|reason] s3 h3 Hp3; simpl.
           ++ ok_goal.
           ++ destruct (onError_given props); simpl; ok_goal.
        -- destruct (onError_given props); simpl; ok_goal.
        -- destruct (onError_given props); simpl; ok_goal.
      * destruct (onError_given props); simpl; ok_goal.
    + ok_goal.
    + ok_goal.
Qed.

(** The retake, from a screen that shows an error, ends at once on an
    idle screen. *)
Lemma onRetry_idle s h :
  idle_ok s h -> captureError s <> None ->
  seg_outcome (advance (onRetry (capturedImage s)) s) = Finished tt /\
  idle_ok (seg_state (advance (onRetry (capturedImage s)) s))
          (h ++ seg_trace (advance (onRetry (capturedImage s)) s)).
Proof.
  intros [Hurls [Hagree [Hup [[Hnext _]|[_ [_ Hnone]]]]]] Herr;
    [|contradiction].
  unfold urls_accounted, current_url in Hurls.
  destruct (capturedImage s) as [image|]; simpl; (split; [reflexivity|]).
  - unfold idle_ok, urls_accounted, errors_agree, current_url.
    replace (h ++ [Called (revokeObjectURL (url image));
                   Called (startCamera "environment")])%list
      with ((h ++ [Called (revokeObjectURL (url image))]) ++
            [Called (startCamera "environment")])%list
      by (rewrite <- app_assoc; reflexivity).
    rewrite !count_snoc, !captured_urls_snoc, !revoked_urls_snoc. simpl.
    rewrite !app_nil_r, Hurls. repeat split; try lia; try assumption.
    left. split; [lia | left; reflexivity].
  - unfold idle_ok, urls_accounted, errors_agree, current_url.
    rewrite !count_snoc, !captured_urls_snoc, !revoked_urls_snoc. simpl.
    rewrite !app_nil_r in *. repeat split; try assumption; try lia.
    left. split; [lia | left; reflexivity].
Qed.

Lemma pending_ok_errors c s h : pending_ok c s h -> errors_agree s.
Proof. intros [_ [H _]]. exact H. Qed.

Lemma idle_ok_errors s h : idle_ok s h -> errors_agree s.
Proof. intros [_ [H _]]. exact H. Qed.

Lemma step_screen_ok props sc sc' :
  screen_ok sc -> step props sc sc' -> screen_ok sc'.
Proof.
  intros [[Hragree Hrender] Hinv] Hstep.
  destruct Hstep as [sc b | sc | sc date randomId Herr Himg Hen | sc Herr
                    | sc earlier t later settled Hpending];
    unfold screen_ok, render_ok in *; cbv zeta;
    cbn [hooks rendered isStreaming pending history].
  - auto.
  - destruct Hinv as [[Hnone Hidle] | [t [Hone [Hp [_ [_ Hk]]]]]].
    + split; [split; [exact (idle_ok_errors _ _ Hidle) | left; reflexivity]|].
      left. split; assumption.
    + split; [split; [exact (pending_ok_errors _ _ _ Hp) | left; reflexivity]|].
      right. exists t. pose proof Hp as [_ [_ [_ [Hcap [Herr _]]]]].
      repeat (split; [first [assumption | reflexivity]|]); assumption.
  - apply capture_enabled_not_capturing in Hen.
    destruct Hrender as [Hsame | [Hcap _]]; [|congruence].
    destruct Hinv as [[Hnone Hidle] | [t [_ [_ [Hcap _]]]]]; [|congruence].
    rewrite Hsame in Herr, Himg. rewrite Hnone. cbn [app].
    pose proof (advance_respects _ (hooks sc) (history sc)
                  (handleCapture_respects props date randomId _ _ Hidle Herr Himg))
      as Hadv.
    destruct (seg_outcome (advance (handleCapture props date randomId) (hooks sc)))
      as [a|e|c k]; cbn [suspended].
    + split; [split; [exact (idle_ok_errors _ _ Hadv) | left; reflexivity]|].
      left. split; [reflexivity | exact Hadv].
    + split; [split; [exact (idle_ok_errors _ _ Hadv) | left; reflexivity]|].
      left. split; [reflexivity | exact Hadv].
    + destruct Hadv as [Hp Hk].
      split; [split; [exact (pending_ok_errors _ _ _ Hp) | left; reflexivity]|].
      right. exists {| awaiting := c; continuation := k |}. cbn [awaiting continuation].
      pose proof Hp as [_ [_ [_ [Hcap [Herr' _]]]]].
      repeat (split; [first [assumption | reflexivity]|]); assumption.
  - destruct Hrender as [Hsame | [_ Hnone]]; [|congruence].
    destruct Hinv as [[Hnone Hidle] | [t [_ [_ [_ [Hnone _]]]]]]; [|congruence].
    rewrite Hsame in *.
    destruct (onRetry_idle (hooks sc) (history sc) Hidle Herr) as [Hfin Hidle'].
    rewrite Hfin, Hnone. cbn [suspended app].
    split; [split; [exact (idle_ok_errors _ _ Hidle') | left; reflexivity]|].
    left. split; [reflexivity | exact Hidle'].
  - destruct Hinv as [[Hnone _] | [t0 [Hone [Hp [Hcap [Herr Hk]]]]]].
    + rewrite Hnone in Hpending. destruct earlier; discriminate.
    + rewrite Hone in Hpending.
      destruct earlier as [|t1 earlier]; [|destruct earlier; discriminate].
      simpl in Hpending. injection Hpending as <- <-.
      pose proof (advance_respects _ (hooks sc) (history sc)
                    (Hk settled _ _ Hp)) as Hadv.
      split; [split; [exact Hragree | right; split; assumption]|].
      destruct (seg_outcome (advance (continuation t0 settled) (hooks sc)))
        as [a|e|c k]; cbn [suspended app].
      * left. split; [reflexivity | exact Hadv].
      * left. split; [reflexivity | exact Hadv].
      * destruct Hadv as [Hp' Hk']. right.
        exists {| awaiting := c; continuation := k |}. cbn [awaiting continuation].
        repeat (split; [first [assumption | reflexivity]|]); assumption.
Qed.

Lemma mounted_ok : screen_ok mounted.
Proof.
  split; [split; [reflexivity | left; reflexivity]|].
  left. split; [reflexivity|].
  repeat split. left. split; [reflexivity | left; reflexivity].
Qed.

Lemma reachable_screen_ok props sc : reachable props sc -> screen_ok sc.
Proof.
  induction 1 as [|sc sc' _ IH Hstep].
  - exact mounted_ok.
  - exact (step_screen_ok props sc sc' IH Hstep).
Qed.

Lemma uploading_screen_reachable : reachable example_props uploading_screen.
Proof.
  apply (reachable_step example_props capturing_screen).
  - exact capturing_screen_reachable.
  - apply settle_first_step. discriminate.
Qed.

Lemma rejected_screen_reachable : reachable example_props rejected_screen.
Proof.
  apply (reachable_step example_props
           (settle_first blurry_environment uploading_screen)).
  - apply (reachable_step example_props uploading_screen).
    + exact uploading_screen_reachable.
    + apply settle_first_step. discriminate.
  - apply step_render.
Qed.

Lemma retaken_screen_reachable : reachable example_props retaken_screen.
Proof.
  apply (reachable_step example_props rejected_screen).
  - exact rejected_screen_reachable.
  - apply step_retry. discriminate.
Qed.

Lemma accepted_screen_reachable : reachable example_props accepted_screen.
Proof.
  unfold accepted_screen.
  repeat (eapply reachable_step; [|apply settle_first_step; discriminate]).
  exact capturing_screen_reachable.
Qed.

(** X13. On every screen that can be reached from the mount, the object
    URLs the screen was given with the captured images are, in order, the
    ones it has revoked, followed by the one of the image it holds if it
    holds one: no URL is dropped without being revoked. *)
Theorem object_urls_accounted (props : Props) (sc : Screen) :
  reachable props sc ->
  captured_urls (history sc) =
  (revoked_urls (history sc) ++ current_url (hooks sc))%list.
Proof.
  intros Hreach.
  destruct (reachable_screen_ok props sc Hreach)
    as [_ [[_ [Hurls _]] | [t [_ [[Hurls _] _]]]]]; exact Hurls.
Qed.

Lemma object_urls_accounted_example :
  captured_urls (history retaken_screen) =
  (revoked_urls (history retaken_screen) ++ current_url (hooks retaken_screen))%list.
Proof.
  exact (object_urls_accounted example_props retaken_screen
                               retaken_screen_reachable).
Defined.

(** On that screen one URL was given and it was revoked. *)
Example retaken_screen_urls :
  captured_urls (history retaken_screen) = ["blob:doc-back-1"] /\
  revoked_urls (history retaken_screen) = ["blob:doc-back-1"] /\
  current_url (hooks retaken_screen) = [].
Proof. repeat split. Qed.

Lemma stale_page_no_action camera s :
  isCapturing s = true -> captureError s = None -> no_action (render camera s).
Proof.
  intros Hcap Herr. unfold render. rewrite Herr. simpl.
  destruct (capturedImage s); simpl; [exact I|].
  unfold capture_disabled. rewrite Hcap.
  destruct (Camera.isStreaming camera); reflexivity.
Qed.

(** X14. On every screen that can be reached from the mount, [onNext]
    has been called at most once. Once the wizard has advanced no handler
    is pending and the page offers nothing to click, so that no handler of
    the screen calls [onNext] again. *)
Theorem advances_at_most_once (props : Props) (sc : Screen) :
  reachable props sc ->
  count is_onNext (history sc) <= 1 /\
  (count is_onNext (history sc) = 1 ->
   pending sc = [] /\
   forall camera, no_action (render camera (rendered sc))).
Proof.
  intros Hreach.
  destruct (reachable_screen_ok props sc Hreach) as [[_ Hrender] Hinv].
  destruct Hinv as [[Hnone [_ [_ [_ Hcases]]]]
                   | [t [_ [[_ [_ [Hnext _]]] _]]]].
  - destruct Hcases as [[Hnext _] | [Hnext [Himg Herr]]].
    + rewrite Hnext. split; [lia | discriminate].
    + rewrite Hnext. split; [lia|]. intros _. split; [exact Hnone|].
      intros camera. destruct Hrender as [Hsame | [Hcap Herr']].
      * rewrite Hsame. unfold render. rewrite Herr. simpl.
        destruct (capturedImage (hooks sc)); [exact I | congruence].
      * apply stale_page_no_action; assumption.
  - rewrite Hnext. split; [lia | discriminate].
Qed.

Lemma advances_at_most_once_example :
  count is_onNext (history accepted_screen) <= 1 /\
  (count is_onNext (history accepted_screen) = 1 ->
   pending accepted_screen = [] /\
   forall camera, no_action (render camera (rendered accepted_screen))).
Proof.
  exact (advances_at_most_once example_props accepted_screen
                               accepted_screen_reachable).
Defined.

Example accepted_screen_advanced :
  count is_onNext (history accepted_screen) = 1.
Proof. reflexivity. Qed.

(** X15. On every screen that can be reached from the mount, the capture
    page never shows the upload error: whenever [uploadError] is set so is
    [captureError], with the same message, and the error page is shown in
    place of the capture page. *)
Theorem upload_error_banner_never_shown
    (props : Props) (sc : Screen) (camera : Camera.t) :
  reachable props sc ->
  uploadError (rendered sc) = option_map message (captureError (rendered sc)) /\
  match render camera (rendered sc) with
  | capture_page page => upload_error page = None
  | error_page error => uploadError (rendered sc) = Some (message error)
  end.
Proof.
  intros Hreach.
  destruct (reachable_screen_ok props sc Hreach) as [[Hagree _] _].
  unfold errors_agree in Hagree. split; [exact Hagree|].
  unfold render. destruct (captureError (rendered sc)) as [error|]; simpl.
  - exact Hagree.
  - rewrite Hagree. reflexivity.
Qed.

Lemma upload_error_banner_never_shown_example :
  uploadError (rendered rejected_screen) =
    option_map message (captureError (rendered rejected_screen)) /\
  match render example_camera (rendered rejected_screen) with
  | capture_page page => upload_error page = None
  | error_page error => uploadError (rendered rejected_screen) = Some (message error)
  end.
Proof.
  exact (upload_error_banner_never_shown example_props rejected_screen
           example_camera rejected_screen_reachable).
Defined.

(** X16. While a handler is stopped at an [await], on every screen that
    can be reached from the mount, the page on display is the capture
    page and its button is absent or disabled: neither a second capture
    nor a retake can come in between. *)
Theorem no_action_while_pending
    (props : Props) (sc : Screen) (camera : Camera.t) :
  reachable props sc ->
  pending sc <> [] ->
  no_action (render camera (rendered sc)).
Proof.
  intros Hreach Hbusy.
  destruct (reachable_screen_ok props sc Hreach)
    as [_ [[Hnone _] | [t [_ [_ [Hcap [Herr _]]]]]]]; [contradiction|].
  apply stale_page_no_action; assumption.
Qed.

Lemma no_action_while_pending_example :
  no_action (render example_camera (rendered uploading_screen)).
Proof.
  apply (no_action_while_pending example_props uploading_screen example_camera).
  - exact uploading_screen_reachable.
  - discriminate.
Defined.

(** X17. On every screen that can be reached from the mount, once no
    handler is pending and the page is up to date: the page is the error
    page, with its retry; or it is the capture page, with no upload marked
    as in progress, and it has the capture button unless the wizard has
    advanced. *)
Theorem idle_page_offers_a_way_on
    (props : Props) (sc : Screen) (camera : Camera.t) :
  reachable props sc ->
  pending sc = [] ->
  rendered sc = hooks sc ->
  match render camera (rendered sc) with
  | error_page error => captureError (hooks sc) = Some error
  | capture_page page =>
      processing page = false /\
      (button page <> None \/ count is_onNext (history sc) = 1)
  end.
Proof.
  intros Hreach Hnone Hsame.
  destruct (reachable_screen_ok props sc Hreach)
    as [_ [[_ [_ [_ [Hup Hcases]]]] | [t [Hone _]]]]; [|congruence].
  rewrite Hsame. unfold render.
  destruct (captureError (hooks sc)) as [error|] eqn:Herr; simpl; [reflexivity|].
  split; [exact Hup|].
  destruct Hcases as [[_ [Himg | Herr']] | [Hnext _]].
  - left. rewrite Himg. discriminate.
  - congruence.
  - right. exact Hnext.
Qed.

Lemma idle_page_offers_a_way_on_example :
  match render example_camera (rendered retaken_screen) with
  | error_page error => captureError (hooks retaken_screen) = Some error
  | capture_page page =>
      processing page = false /\
      (button page <> None \/ count is_onNext (history retaken_screen) = 1)
  end.
Proof.
  apply (idle_page_offers_a_way_on example_props retaken_screen example_camera).
  - exact retaken_screen_reachable.
  - reflexivity.
  - reflexivity.
Defined.

(** After the retake the button is back and, with the camera streaming,
    enabled. *)
Example retaken_screen_page :
  render example_camera (rendered retaken_screen) =
  capture_page
    {| preview := video false; camera_error := None; upload_error := None;
       processing := false;
       button := Some {| disabled := false; label := "Capture Document" |} |}.
Proof. reflexivity. Qed.

End DocumentBackCaptureFacts.
